(** * SynthEval metrics: epsilon identifiability and mixed correlation

    A shallow embedding of
      - [syntheval/metrics/privacy/metric_epsilon_identifiability.py]
      - [syntheval/metrics/utility/metric_mixed_correlation.py]
    together with the properties of the two metrics.

    Modelling conventions.
    - A Python float is a [float]: either a finite real [Fin x], on which
      arithmetic is exact, or [NaN].  A division whose divisor is zero
      yields [NaN]; [NaN] is absorbing and every comparison with it is
      false.  The model has no infinities: numpy answers [x / 0] with an
      infinity when [x] is not zero, the model answers [NaN]; the one
      division of the code whose divisor is not shifted away from zero,
      in [_correlation_ratio], is shown never to meet a zero divisor.
    - A Python exception is [None] in the option monad; the attributes an
      [evaluate] has rebound before it raises are not kept.
    - Dictionaries are [gmap]s; the dictionaries reachable from a metric
      instance live in a heap indexed by object identity, so that updating
      a dictionary in place and binding a fresh one are different things.
    - The cells of a data frame are finite reals (the categorical columns
      hold the numeric codes of their categories). *)

From Stdlib Require Import Reals Lra Lia ZArith.
From stdpp Require Import gmap strings list sorting.

Local Open Scope R_scope.

#[global] Instance R_eq_dec : EqDecision R := Req_dec_T.
#[global] Instance Rlt_decision (x y : R) : Decision (x < y) := Rlt_dec x y.
#[global] Instance Rle_decision (x y : R) : Decision (x <= y) := Rle_dec x y.

(** ** Floats *)

Inductive float : Type :=
  | Fin (x : R)
  | NaN.

Definition is_finite (a : float) : Prop :=
  match a with Fin _ => True | NaN => False end.

Definition flift2 (f : R → R → R) (a b : float) : float :=
  match a, b with
  | Fin x, Fin y => Fin (f x y)
  | _, _ => NaN
  end.

Definition fadd : float → float → float := flift2 Rplus.
Definition fsub : float → float → float := flift2 Rminus.
Definition fmul : float → float → float := flift2 Rmult.

Definition fdiv (a b : float) : float :=
  match a, b with
  | Fin x, Fin y => if decide (y = 0) then NaN else Fin (x / y)
  | _, _ => NaN
  end.

Definition fsqrt (a : float) : float :=
  match a with
  | Fin x => if decide (x < 0) then NaN else Fin (sqrt x)
  | NaN => NaN
  end.

Definition ftanh (a : float) : float :=
  match a with
  | Fin x => Fin (tanh x)
  | NaN => NaN
  end.

Definition fexp (a : float) : float :=
  match a with
  | Fin x => Fin (exp x)
  | NaN => NaN
  end.

(** [a == b] on floats: [NaN] is equal to nothing. *)
Definition feqb (a b : float) : bool :=
  match a, b with
  | Fin x, Fin y => bool_decide (x = y)
  | _, _ => false
  end.

(** The literal [1e-16]. *)
Definition eps16 : R := / 10 ^ 16.

(** ** numpy *)

Abbreviation vector := (list float).
Abbreviation matrix := (list (list float)).

(** [np.sum] of a float array. *)
Definition np_sum (v : vector) : float := foldr fadd (Fin 0) v.

(** [np.sum] of a boolean array: the number of [True]s. *)
Definition np_count (v : list bool) : nat := length (filter (λ b, b = true) v).

(** Element-wise binary operation on one-dimensional arrays with numpy's
    broadcasting: equal lengths pair up, an array of length one is
    stretched, anything else raises. *)
Definition np_zip {A B C} (f : A → B → C) (a : list A) (b : list B)
    : option (list C) :=
  if decide (length a = length b) then Some (zip_with f a b)
  else match a, b with
       | [x], _ => Some (f x <$> b)
       | _, [y] => Some ((λ x, f x y) <$> a)
       | _, _ => None
       end.

(** [np.round]: the nearest integer, a tie going to the even neighbour. *)
Definition np_round (x : R) : Z :=
  let f := Int_part x in
  let d := x - IZR f in
  if decide (d < 1 / 2) then f
  else if decide (1 / 2 < d) then (f + 1)%Z
  else if Z.even f then f else (f + 1)%Z.

(** [np.unique(a, return_counts=True)]: the distinct values in increasing
    order, and how often each occurs. *)
Definition np_unique (a : list Z) : list Z * list nat :=
  let value := merge_sort Z.le (remove_dups a) in
  (value, (λ v, length (filter (λ x, x = v) a)) <$> value).

(** ** scipy.stats.entropy *)

(** [scipy.special.entr]. *)
Definition entr (p : float) : float :=
  match p with
  | Fin x =>
      if decide (0 < x) then Fin (- x * ln x)
      else if decide (x = 0) then Fin 0
      else NaN
  | NaN => NaN
  end.

(** [entropy(pk)] with the default natural logarithm: [pk] is normalised
    to sum to one, then [sum(entr(pk))]. *)
Definition entropy (pk : vector) : float :=
  let total := np_sum pk in
  let pk := (λ p, fdiv p total) <$> pk in
  np_sum (entr <$> pk).

(** ** pandas data frames *)

Record DataFrame : Type := mkDataFrame {
  index_size : nat;                       (* number of rows *)
  columns : list (string * list R)        (* column label, column values *)
}.

Fixpoint col_lookup (cols : list (string * list R)) (lab : string)
    : option (list R) :=
  match cols with
  | [] => None
  | (l, v) :: cols => if decide (l = lab) then Some v else col_lookup cols lab
  end.

(** [data[lab]] for one label; [KeyError] when there is no such column. *)
Definition df_getitem (data : DataFrame) (lab : string) : option (list R) :=
  col_lookup (columns data) lab.

(** [data[labs]] for a list of labels: the sub-frame with these columns in
    this order; [KeyError] when one of them is missing. *)
Definition df_select (data : DataFrame) (labs : list string)
    : option DataFrame :=
  cols ← mapM (λ lab, (λ v, (lab, v)) <$> df_getitem data lab) labs;
  Some (mkDataFrame (index_size data) cols).


(** [np.asarray(data)], seen through what the code reads of it: its shape
    and its columns [real[:, i]]. *)
Record ndarray2 : Type := mkArray {
  shape : nat * nat;
  array_cols : list (list R)
}.

Definition np_asarray (data : DataFrame) : ndarray2 :=
  mkArray (index_size data, length (columns data)) (snd <$> columns data).

Definition np_column (a : ndarray2) (i : nat) : list R :=
  default [] (array_cols a !! i).

(** ** The metric base class *)

Abbreviation loc := nat (only parsing).

Inductive pyval : Type :=
  | PyFloat (x : float)
  | PyMatrix (m : matrix).

Abbreviation dict := (gmap string pyval).
Abbreviation heap := (gmap nat (gmap string pyval)).

(** The attributes of a [MetricClass] instance.  [results] holds the
    identity of the dictionary bound to [self.results]; [mixed_corr] is
    absent until [MixedCorrelation.evaluate] sets it. *)
Record MetricClass : Type := mkMetric {
  real_data : DataFrame;
  synt_data : DataFrame;
  hout_data : option DataFrame;
  cat_cols : list string;
  num_cols : list string;
  nn_dist : string;
  analysis_target : string;
  verbose : bool;
  results : loc;
  mixed_corr : option bool
}.

Definition set_data (self : MetricClass) (r s : DataFrame) : MetricClass :=
  mkMetric r s (hout_data self) (cat_cols self) (num_cols self)
    (nn_dist self) (analysis_target self) (verbose self) (results self)
    (mixed_corr self).

Definition set_results (self : MetricClass) (l : loc) : MetricClass :=
  mkMetric (real_data self) (synt_data self) (hout_data self) (cat_cols self)
    (num_cols self) (nn_dist self) (analysis_target self) (verbose self) l
    (mixed_corr self).

Definition set_mixed_corr (self : MetricClass) (b : bool) : MetricClass :=
  mkMetric (real_data self) (synt_data self) (hout_data self) (cat_cols self)
    (num_cols self) (nn_dist self) (analysis_target self) (verbose self)
    (results self) (Some b).

(** The value of [normalize_output]: the dictionary
    [{'val': [...], 'err': [...]}]. *)
Record normalized : Type := mkNormalized {
  val : vector;
  err : list Z
}.

(** ** metric_epsilon_identifiability.py *)

Definition _column_entropy (labels : list R) : float :=
  let '(value, counts) := np_unique (np_round <$> labels) in
  entropy ((λ c, Fin (INR c)) <$> counts).

Module EpsilonIdentifiability.

Definition name : string := "eps_risk".
Definition type : string := "privacy".

(** The first step of [evaluate]: under the keyword ['euclid'] both
    data attributes are rebound to their numeric columns. *)
Definition numeric_only (self : MetricClass) : option MetricClass :=
  if decide (nn_dist self = "euclid") then
    r ← df_select (real_data self) (num_cols self);
    s ← df_select (synt_data self) (num_cols self);
    Some (set_data self r s)
  else Some self.

(** The second step of [evaluate]: [W_adjust], the inverse of the
    entropy of every column of the real data. *)
Definition entropy_weights (data : DataFrame) : vector :=
  let real := np_asarray data in
  let '(no, x_dim) := shape real in
  let W := (λ i, _column_entropy (np_column real i)) <$> seq 0 x_dim in
  (λ w, fdiv (Fin 1) (fadd w (Fin eps16))) <$> W.

Section WithDistance.

(** [_knn_distance(a, b, cat_cols, num, metric, weights)] of
    [utils/nn_distance.py]: for [num = 1] a pair of the vector of
    nearest-neighbour distances of the rows of [a], finite numbers, and
    the vector of the neighbours' positions.  It may raise. *)
Variable _knn_distance :
  DataFrame → DataFrame → list string → nat → string → vector →
  option (list R * list nat).

Definition evaluate (self : MetricClass) (h : heap)
    : option (loc * MetricClass * heap) :=
  self ← numeric_only self;
  let real := np_asarray (real_data self) in
  let '(no, x_dim) := shape real in
  let W_adjust := entropy_weights (real_data self) in
  in_dists ← fst <$> _knn_distance (real_data self) (real_data self)
                       (cat_cols self) 1 (nn_dist self) W_adjust;
  ext_distances ← fst <$> _knn_distance (real_data self) (synt_data self)
                            (cat_cols self) 1 (nn_dist self) W_adjust;
  R_Diff ← np_zip Rminus ext_distances in_dists;
  let identifiability_value :=
    fdiv (Fin (INR (np_count ((λ d, bool_decide (d < 0)) <$> R_Diff))))
         (Fin (INR no)) in
  d ← h !! results self;
  let h :=
    <[results self := <["eps_risk" := PyFloat identifiability_value]> d]> h in
  Some (results self, self, h).

Definition normalize_output (self : MetricClass) (h : heap)
    : option normalized :=
  d ← h !! results self;
  v ← d !! "eps_risk";
  match v with
  | PyFloat risk =>
      let val_non_lin := fexp (fmul (Fin (-5)) risk) in
      Some (mkNormalized [val_non_lin] [0%Z])
  | PyMatrix _ => None
  end.

End WithDistance.

Section WithFormat.

(** ['%.4f' % x]: Python's fixed-point rendering of a float with four
    decimals. *)
Variable format_4f : float → string.

Definition format_output (self : MetricClass) (h : heap) : option string :=
  d ← h !! results self;
  v ← d !! "eps_risk";
  match v with
  | PyFloat risk =>
      Some ("| Epsilon identifiability risk             :   "
            +:+ format_4f risk +:+ "           |")
  | PyMatrix _ => None
  end.

End WithFormat.
End EpsilonIdentifiability.

(** ** pandas and scipy primitives of metric_mixed_correlation.py *)

Definition Rsum (xs : list R) : R := foldr Rplus 0 xs.

(** The distinct values of a column in increasing order (the labels of a
    cross-tabulation axis). *)
Definition sorted_unique (xs : list R) : list R :=
  merge_sort Rle (remove_dups xs).

(** [pd.crosstab(var1, var2)] as an array: one row per distinct value of
    [var1], one column per distinct value of [var2], each cell counting
    the positions that carry this pair of values. *)
Definition pd_crosstab (var1 var2 : list R) : list (list nat) :=
  let pairs := zip var1 var2 in
  let rows := sorted_unique (pairs.*1) in
  let cols := sorted_unique (pairs.*2) in
  (λ r, (λ c, length (filter (λ p, p = (r, c)) pairs)) <$> cols) <$> rows.

(** [a.shape] of a two-dimensional array given by its rows. *)
Definition table_shape {A} (t : list (list A)) : nat * nat :=
  (length t, length (default [] (head t))).

Definition nat_sum (xs : list nat) : nat := foldr Nat.add 0%nat xs.

Definition row_sums (t : list (list nat)) : list nat := nat_sum <$> t.

Definition col_sums (t : list (list nat)) : list nat :=
  (λ j, nat_sum ((λ row, default 0%nat (row !! j)) <$> t))
    <$> seq 0 (table_shape t).2.

(** [scipy.stats.contingency.expected_freq]: the outer product of the
    margins over the total. *)
Definition expected_freq (observed : list (list nat)) : matrix :=
  let total := nat_sum (row_sums observed) in
  (λ r, (λ c, fdiv (Fin (INR r * INR c)) (Fin (INR total)))
          <$> col_sums observed) <$> row_sums observed.

(** [np.sign]. *)
Definition np_sign (x : R) : R :=
  if decide (x < 0) then -1 else if decide (0 < x) then 1 else 0.

(** Yates' continuity correction of one observed cell towards its
    expectation: [observed + np.minimum(0.5, |diff|) * np.sign(diff)]
    with [diff = expected - observed]. *)
Definition yates (o e : float) : float :=
  match fsub e o with
  | Fin diff => fadd o (Fin (Rmin (1 / 2) (Rabs diff) * np_sign diff))
  | NaN => NaN
  end.

(** [chi2_contingency(observed)[0]] with the default [correction=True]
    and Pearson's statistic.  It raises on an empty table and on a zero
    expected frequency.  (The check of [power_divergence] that observed
    and expected totals agree is not modelled.) *)
Definition chi2_contingency (observed : list (list nat)) : option float :=
  let '(nr, nc) := table_shape observed in
  if decide (nr * nc = 0)%nat then None else
  let expected := expected_freq observed in
  if decide (Exists (Exists (λ e, feqb e (Fin 0) = true)) expected) then None else
  let dof := (Z.of_nat (nr * nc) - Z.of_nat (nr + nc) + 2 - 1)%Z in
  if decide (dof = 0%Z) then Some (Fin 0) else
  let f_obs := (λ row : list nat, (λ o, Fin (INR o)) <$> row) <$> observed in
  let f_obs := if decide (dof = 1%Z)
               then zip_with (zip_with yates) f_obs expected
               else f_obs in
  let terms := zip_with (zip_with (λ o e,
                 fdiv (fmul (fsub o e) (fsub o e)) e)) f_obs expected in
  Some (np_sum (concat terms)).

(** The distinct values in order of first appearance
    ([pd.factorize]'s uniques). *)
Fixpoint first_unique (xs : list R) : list R :=
  match xs with
  | [] => []
  | x :: xs => x :: filter (λ y, y ≠ x) (first_unique xs)
  end.

Fixpoint index_of (x : R) (us : list R) : nat :=
  match us with
  | [] => 0
  | u :: us => if decide (u = x) then 0 else S (index_of x us)
  end.

(** [pd.factorize(values)]: each value replaced by the position of its
    category among the uniques. *)
Definition pd_factorize (values : list R) : list nat * list R :=
  let uniques := first_unique values in
  ((λ x, index_of x uniques) <$> values, uniques).

(** [np.max] of an integer array; raises on an empty one. *)
Definition np_max (v : list nat) : option nat :=
  match v with
  | [] => None
  | _ => Some (max_list v)
  end.

(** [np.argwhere(v).flatten()]: the positions that hold [True]. *)
Definition np_argwhere (v : list bool) : list nat :=
  (filter (λ p, p.2 = true) (imap (λ i b, (i, b)) v)).*1.

(** [np.average] of a one-dimensional array; [NaN] on an empty one. *)
Definition np_average (xs : list R) : float :=
  fdiv (Fin (Rsum xs)) (Fin (INR (length xs))).

(** [x ** 2], as in [np.power(x, 2)]. *)
Definition fsquare (x : float) : float := fmul x x.

(** The Pearson correlation of two columns as [DataFrame.corr()] computes
    it with its defaults ([method='pearson'], [min_periods=1]): [NaN] when
    there is no observation or when the divisor vanishes, the quotient
    clipped to [-1, 1] otherwise.  The sums of squared deviations pandas
    accumulates on line are given in closed form. *)
Definition nancorr (xs ys : list R) : float :=
  let nobs := length xs in
  if decide (nobs < 1)%nat then NaN else
  let meanx := Rsum xs / INR nobs in
  let meany := Rsum ys / INR nobs in
  let ssqdm_x := Rsum ((λ vx, (vx - meanx) * (vx - meanx)) <$> xs) in
  let ssqdm_y := Rsum ((λ vy, (vy - meany) * (vy - meany)) <$> ys) in
  let covxy := Rsum (zip_with (λ vx vy, (vx - meanx) * (vy - meany)) xs ys) in
  let divisor := sqrt (ssqdm_x * ssqdm_y) in
  if decide (divisor ≠ 0) then
    let val := covxy / divisor in
    Fin (if decide (1 < val) then 1 else if decide (val < -1) then -1 else val)
  else NaN.

(** [data.corr()]. *)
Definition df_corr (data : DataFrame) : matrix :=
  (λ cx, (λ cy, nancorr cx.2 cy.2) <$> columns data) <$> columns data.

(** The transpose of a matrix with [ncols] columns, given by its rows. *)
Definition transpose (ncols : nat) (m : matrix) : matrix :=
  (λ j, (λ row, default NaN (row !! j)) <$> m) <$> seq 0 ncols.

(** [np.diag] of a two-dimensional array: its diagonal. *)
Definition np_diagonal (m : matrix) : vector :=
  omap (λ i, m !! i ≫= (.!! i)) (seq 0 (length m)).

(** [np.diag] of a one-dimensional array: the square matrix that carries
    it on its diagonal and zero elsewhere. *)
Definition np_diag (v : vector) : matrix :=
  imap (λ i x, imap (λ j _, if decide (i = j) then x else Fin 0) v) v.

Definition mat_add (a b : matrix) : matrix := zip_with (zip_with fadd) a b.
Definition mat_sub (a b : matrix) : matrix := zip_with (zip_with fsub) a b.

(** [np.linalg.norm(m, ord='fro')]. *)
Definition norm_fro (m : matrix) : float :=
  fsqrt (np_sum (fsquare <$> concat m)).

(** ** metric_mixed_correlation.py *)

Definition _cramers_V (var1 var2 : list R) : option float :=
  let crosstab := pd_crosstab var1 var2 in
  stat ← chi2_contingency crosstab;
  let obs := nat_sum (concat crosstab) in
  let mini := (Z.of_nat (Nat.min (table_shape crosstab).1
                                  (table_shape crosstab).2) - 1)%Z in
  Some (fdiv stat (Fin (IZR (Z.of_nat obs * mini) + eps16))).

Definition _apply_mat (data : DataFrame)
    (func : list R → list R → option float) (labs1 labs2 : list string)
    : option matrix :=
  mapM (λ lab1,
    mapM (λ lab2,
      v1 ← df_getitem data lab1;
      v2 ← df_getitem data lab2;
      func v1 v2) labs2) labs1.

(** [measurements[np.argwhere(fcat == i).flatten()]]: the measurements
    at the positions of category code [i]; [KeyError] when a position has
    no measurement. *)
Definition cat_measures (fcat : list nat) (measurements : list R) (i : nat)
    : option (list R) :=
  mapM (λ k, measurements !! k)
       (np_argwhere ((λ c, bool_decide (c = i)) <$> fcat)).

(** The body of [_correlation_ratio] up to its two sums, [numerator] and
    [denominator]. *)
Definition correlation_ratio_terms (categories measurements : list R)
    : option (float * float) :=
  let '(fcat, _) := pd_factorize categories in
  m ← np_max fcat;
  let cat_num := (m + 1)%nat in
  groups ← mapM (cat_measures fcat measurements) (seq 0 cat_num);
  let n_array := (λ cat_measures : list R,
                    Fin (INR (length cat_measures))) <$> groups in
  let y_avg_array := np_average <$> groups in
  let y_total_avg :=
    fdiv (np_sum (zip_with fmul y_avg_array n_array)) (np_sum n_array) in
  let numerator :=
    np_sum (zip_with fmul n_array
              ((λ y, fsquare (fsub y y_total_avg)) <$> y_avg_array)) in
  let denominator :=
    np_sum ((λ y, fsquare (fsub (Fin y) y_total_avg)) <$> measurements) in
  Some (numerator, denominator).

Definition _correlation_ratio (categories measurements : list R)
    : option float :=
  '(numerator, denominator) ← correlation_ratio_terms categories measurements;
  let eta := if feqb numerator (Fin 0) then Fin 0
             else fdiv numerator denominator in
  Some eta.

(** The last line of [mixed_correlation]:
    [corr + np.diag(1 - np.diag(corr))]. *)
Definition force_diagonal (corr : matrix) : matrix :=
  mat_add corr (np_diag ((λ d, fsub (Fin 1) d) <$> np_diagonal corr)).

(** The blocks carry the same labels where they are joined, so the
    label alignment of [pd.concat] puts them side by side (axis 1) and on
    top of each other (axis 0). *)
Definition mixed_correlation (data : DataFrame)
    (num_cols cat_cols : list string) : option matrix :=
  corr_num_num ← df_corr <$> df_select data num_cols;
  corr_cat_cat ← _apply_mat data _cramers_V cat_cols cat_cols;
  corr_cat_num ← _apply_mat data _correlation_ratio cat_cols num_cols;
  let top_row := zip_with app corr_cat_cat corr_cat_num in
  let bot_row :=
    zip_with app (transpose (length num_cols) corr_cat_num) corr_num_num in
  let corr := top_row ++ bot_row in
  Some (force_diagonal corr).

Module MixedCorrelation.
Section WithPlot.

(** [plot_matrix_heatmap(matrix, title, tag)] of [utils/plot_metrics.py]:
    writes a figure, returns nothing that is used, and may raise. *)
Variable plot_matrix_heatmap : matrix → string → string → option unit.

Definition name : string := "corr_diff".
Definition type : string := "utility".

Definition evaluate (self : MetricClass) (mixed_corr return_mats : bool)
    (h : heap) : option (loc * MetricClass * heap) :=
  let self := set_mixed_corr self mixed_corr in
  '(r_corr, f_corr, corr_mat) ←
    (if mixed_corr then
       r_corr ← mixed_correlation (real_data self) (num_cols self)
                   (cat_cols self);
       f_corr ← mixed_correlation (synt_data self) (num_cols self)
                   (cat_cols self);
       let corr_mat := mat_sub r_corr f_corr in
       _ ← (if verbose self
            then plot_matrix_heatmap corr_mat
                   "Mixed correlation matrix difference" "corr"
            else Some ());
       Some (r_corr, f_corr, corr_mat)
     else
       r_corr ← df_corr <$> df_select (real_data self) (num_cols self);
       f_corr ← df_corr <$> df_select (synt_data self) (num_cols self);
       let corr_mat := mat_sub r_corr f_corr in
       _ ← (if verbose self
            then plot_matrix_heatmap corr_mat
                   "Correlation matrix difference (nums only)" "corr"
            else Some ());
       Some (r_corr, f_corr, corr_mat));
  (* [self.results = {...}] binds a new dictionary *)
  let l := fresh (dom h) in
  let d : dict := {[ "corr_mat_diff" := PyFloat (norm_fro corr_mat) ]} in
  let d := if return_mats then <["real_cor_mat" := PyMatrix r_corr]> d else d in
  let d := if return_mats then <["synt_cor_mat" := PyMatrix f_corr]> d else d in
  let d := if return_mats then <["diff_cor_mat" := PyMatrix corr_mat]> d else d in
  Some (l, set_results self l, <[l := d]> h).

Definition normalize_output (self : MetricClass) (h : heap)
    : option normalized :=
  d ← h !! results self;
  v ← d !! "corr_mat_diff";
  match v with
  | PyFloat x => Some (mkNormalized [fsub (Fin 1) (ftanh x)] [0%Z])
  | PyMatrix _ => None
  end.

End WithPlot.

Section WithFormat.

(** ['%.4f' % x]: Python's fixed-point rendering of a float with four
    decimals. *)
Variable format_4f : float → string.

(** [AttributeError] while [self.mixed_corr] is not set, [KeyError] while
    the results hold no ['corr_mat_diff']. *)
Definition format_output (self : MetricClass) (h : heap) : option string :=
  mixed ← mixed_corr self;
  d ← h !! results self;
  v ← d !! "corr_mat_diff";
  match v with
  | PyFloat x =>
      if mixed : bool then
        Some ("| Mixed correlation matrix difference      :   "
              +:+ format_4f x +:+ "           |")
      else
        Some ("| Correlation difference (nums only)       :   "
              +:+ format_4f x +:+ "           |")
  | PyMatrix _ => None
  end.

End WithFormat.
End MixedCorrelation.

(** * Specification-side notions *)

(** Row [i] is identifiable: [ext_distances[i]] is strictly below
    [in_dists[i]]. *)
Definition identifiable (ext_distances in_dists : list R) (i : nat) : Prop :=
  match ext_distances !! i, in_dists !! i with
  | Some e, Some x => e < x
  | _, _ => False
  end.

#[global] Instance identifiable_dec ext_distances in_dists i :
  Decision (identifiable ext_distances in_dists i).
Proof.
  unfold identifiable.
  destruct (ext_distances !! i), (in_dists !! i); apply _.
Defined.

(** The rows flagged as identifiable among the [no] real rows. *)
Definition flagged (no : nat) (ext_distances in_dists : list R) : list nat :=
  filter (identifiable ext_distances in_dists) (seq 0 no).

(** An [evaluate] method updates the results mapping of its instance in
    place: it returns the very dictionary that was bound to [self.results]
    before the call, the attribute still names it, and every entry it held
    is still there unless its key is one of the [stored] ones. *)
Definition updates_results_in_place
    (evaluate : MetricClass → heap → option (loc * MetricClass * heap))
    (stored : list string) : Prop :=
  ∀ self h d l self' h',
    h !! results self = Some d →
    evaluate self h = Some (l, self', h') →
    l = results self ∧ results self' = results self ∧
    ∃ d', h' !! l = Some d' ∧
          ∀ k v, k ∉ stored → d !! k = Some v → d' !! k = Some v.

(** How often [v] occurs in [a]. *)
Definition count (v : Z) (a : list Z) : nat :=
  length (filter (λ x, x = v) a).

(** Shannon entropy, to the natural logarithm, of a distribution. *)
Definition shannon_entropy (ps : list R) : R :=
  Rsum ((λ p, - (p * ln p)) <$> ps).

(** The frequency distribution of a sequence of integers: for each
    distinct value, the share of the positions that hold it. *)
Definition frequencies (a : list Z) : list R :=
  (λ v, INR (count v a) / INR (length a)) <$> merge_sort Z.le (remove_dups a).

(** The measurements of the positions whose category code is [i]. *)
Definition group (fcat : list nat) (measurements : list R) (i : nat)
    : list R :=
  (filter (λ p, p.1 = i) (zip fcat measurements)).*2.

(** The groups of all category codes, in the order of the codes. *)
Definition groups_of (categories measurements : list R) : list (list R) :=
  let fcat := (pd_factorize categories).1 in
  group fcat measurements <$> seq 0 (max_list fcat + 1).

Definition mean (xs : list R) : R := Rsum xs / INR (length xs).

(** The weighted variance of the group means around [total_avg]. *)
Definition between_groups_ss (groups : list (list R)) (total_avg : R) : R :=
  Rsum ((λ g, INR (length g)
              * ((mean g - total_avg) * (mean g - total_avg))) <$> groups).

(** The variance of the measurements around [total_avg]. *)
Definition total_ss (measurements : list R) (total_avg : R) : R :=
  Rsum ((λ y, (y - total_avg) * (y - total_avg)) <$> measurements).

(** The two-dimensional array with entry [f r c] at row [r], column [c]. *)
Definition table_of {A B C} (f : A → B → C) (rows : list A) (cols : list B)
    : list (list C) :=
  (λ r, (λ c, f r c) <$> cols) <$> rows.

(** The expected frequency of the cell [(r, c)] of the table with counts
    [N]: the product of the margins of its row and column over the
    total. *)
Definition expected_cell {A B} (N : A → B → nat) (rows : list A)
    (cols : list B) (r : A) (c : B) : float :=
  fdiv (Fin (INR (nat_sum (N r <$> cols))
             * INR (nat_sum ((λ r, N r c) <$> rows))))
       (Fin (INR (nat_sum ((λ r, nat_sum (N r <$> cols)) <$> rows)))).

(** A column that takes at most one value. *)
Definition is_constant (v : list R) : Prop :=
  ∀ x y, x ∈ v → y ∈ v → x = y.

(** A data frame with at least one row whose columns all have as many
    values as the frame has rows. *)
Definition well_formed (data : DataFrame) : Prop :=
  (0 < index_size data)%nat ∧
  Forall (λ c, length c.2 = index_size data) (columns data).

Definition has_columns (data : DataFrame) (labs : list string) : Prop :=
  Forall (λ lab, is_Some (df_getitem data lab)) labs.

Definition column (data : DataFrame) (lab : string) : list R :=
  default [] (df_getitem data lab).

(** The axis of the mixed matrix: the categorical labels (left), then
    the numeric ones (right). *)
Definition axis (num_cols cat_cols : list string) : list (string + string) :=
  (inl <$> cat_cols) ++ (inr <$> num_cols).

(** The association measure of two columns of the axis, by their
    kinds. *)
Definition association (data : DataFrame) (l1 l2 : string + string) : float :=
  match l1, l2 with
  | inl a, inl b => default NaN (_cramers_V (column data a) (column data b))
  | inl a, inr b =>
      default NaN (_correlation_ratio (column data a) (column data b))
  | inr a, inl b =>
      default NaN (_correlation_ratio (column data b) (column data a))
  | inr a, inr b => nancorr (column data a) (column data b)
  end.

(** The keys [MixedCorrelation.evaluate] may store. *)
Definition stored_keys : list string :=
  ["corr_mat_diff"; "real_cor_mat"; "synt_cor_mat"; "diff_cor_mat"]%string.

(** The rank of [x] in a column, ties sharing the average of their
    positions. *)
Definition rank (xs : list R) (x : R) : R :=
  INR (length (filter (λ y, y < x) xs))
  + (INR (length (filter (λ y, y = x) xs)) + 1) / 2.

(** Spearman's rho, the rank correlation the docstring and the
    specification name: the Pearson correlation of the ranks. *)
Definition spearman_rho (xs ys : list R) : float :=
  nancorr (rank xs <$> xs) (rank ys <$> ys).

(** The sum of a list in a monoid. *)
Definition msum {A} (op : A → A → A) (e : A) (l : list A) : A :=
  foldr op e l.

(** The correlation matrix [MixedCorrelation.evaluate] computes of one
    data set: the mixed matrix in the mode [mixed_corr=True], the
    matrix [data[num_cols].corr()] otherwise. *)
Definition correlation_of (mixed : bool) (data : DataFrame)
    (num_cols cat_cols : list string) : option matrix :=
  if mixed then mixed_correlation data num_cols cat_cols
  else df_corr <$> df_select data num_cols.

(** * Sample inputs *)

(** A distance utility that answers every query with the same vector. *)
Definition knn_const (dists : list R) :
    DataFrame → DataFrame → list string → nat → string → vector →
    option (list R * list nat) :=
  λ _ _ _ _ _ _, Some (dists, (λ _, 0%nat) <$> dists).

(** A plotting utility that always succeeds. *)
Definition plot_silent : matrix → string → string → option unit :=
  λ _ _ _, Some ().

(** One row, a numeric column [x] and a categorical column [c]. *)
Definition one_row_frame : DataFrame :=
  mkDataFrame 1 [("x"%string, [5]); ("c"%string, [0])].

Definition one_row_metric (nn_dist : string) : MetricClass :=
  mkMetric one_row_frame one_row_frame None ["c"%string] ["x"%string]
    nn_dist "c" false 0 None.

(** Three rows, two numeric columns, the second an increasing but not
    linear function of the first. *)
Definition monotone_frame : DataFrame :=
  mkDataFrame 3 [("x"%string, [0; 1; 2]); ("y"%string, [0; 1; 5])].

(** [one_row_frame] restricted to its numeric column. *)
Definition one_row_numeric_frame : DataFrame :=
  mkDataFrame 1 [("x"%string, [5])].


(** A heap whose object [0] is a results dictionary with one entry. *)
Definition one_entry_results : dict := {[ "old"%string := PyFloat (Fin 1) ]}.
Definition one_entry_heap : heap := {[ 0%nat := one_entry_results ]}.

(** A rendering that answers every query with the same text. *)
Definition format_fixed : float → string := λ _, "0.0000"%string.

(** An instance under ['euclid'] whose numeric column list names a
    column that the data lack. *)
Definition missing_column_metric : MetricClass :=
  mkMetric one_row_frame one_row_frame None ["c"%string] ["z"%string]
    "euclid" "c" false 0 None.

(** A frame without rows. *)
Definition empty_frame : DataFrame :=
  mkDataFrame 0 [("x"%string, []); ("c"%string, [])].

(** * Sums *)

Section Sums.

Lemma Rdiv_unit_interval a b : 0 <= a → a <= b → 0 < b → 0 <= a / b <= 1.
Proof.
  intros Ha Hab Hb. unfold Rdiv.
  assert (0 < / b) by (by apply Rinv_0_lt_compat).
  assert (b * / b = 1) by (apply Rinv_r; lra).
  split; nra.
Qed.

Lemma square_nonneg x : 0 <= x * x.
Proof. apply Rle_0_sqr. Qed.

Lemma Rsum_cons x xs : Rsum (x :: xs) = x + Rsum xs.
Proof. done. Qed.

Lemma nat_sum_cons c cs : nat_sum (c :: cs) = (c + nat_sum cs)%nat.
Proof. done. Qed.

Lemma np_sum_cons x xs : np_sum (x :: xs) = fadd x (np_sum xs).
Proof. done. Qed.

Lemma np_sum_Fin (xs : list R) : np_sum (Fin <$> xs) = Fin (Rsum xs).
Proof.
  induction xs as [|x xs IH]; [done|].
  by rewrite fmap_cons, np_sum_cons, IH.
Qed.

Lemma Rsum_INR (cs : list nat) : Rsum (INR <$> cs) = INR (nat_sum cs).
Proof.
  induction cs as [|c cs IH]; [done|].
  by rewrite fmap_cons, Rsum_cons, nat_sum_cons, IH, plus_INR.
Qed.

Lemma Rsum_nonneg (xs : list R) : Forall (λ x, 0 <= x) xs → 0 <= Rsum xs.
Proof.
  induction 1 as [|x xs Hx _ IH]; [cbv; lra|]. rewrite Rsum_cons. lra.
Qed.

Lemma Rsum_zero_inv (xs : list R) :
  Forall (λ x, 0 <= x) xs → Rsum xs = 0 → Forall (λ x, x = 0) xs.
Proof.
  induction 1 as [|x xs Hx Hxs IH]; [done|].
  rewrite Rsum_cons. intros E.
  pose proof (Rsum_nonneg xs Hxs) as Hs.
  constructor; [lra|]. apply IH. lra.
Qed.

Lemma nat_sum_elem (cs : list nat) c : c ∈ cs → (c ≤ nat_sum cs)%nat.
Proof.
  induction 1 as [c cs|c c' cs _ IH]; rewrite nat_sum_cons; lia.
Qed.

Lemma Rsum_app xs ys : Rsum (xs ++ ys) = Rsum xs + Rsum ys.
Proof.
  induction xs as [|x xs IH]; [cbv [app Rsum foldr]; lra|].
  rewrite <- app_comm_cons, !Rsum_cons, IH. lra.
Qed.

Lemma Rsum_plus {A} (f g : A → R) (l : list A) :
  Rsum ((λ x, f x + g x) <$> l) = Rsum (f <$> l) + Rsum (g <$> l).
Proof.
  induction l as [|x l IH]; [cbv [fmap list_fmap Rsum foldr]; lra|].
  rewrite !fmap_cons, !Rsum_cons, IH. lra.
Qed.

Lemma Rsum_scale {A} (c : R) (f : A → R) (l : list A) :
  Rsum ((λ x, c * f x) <$> l) = c * Rsum (f <$> l).
Proof.
  induction l as [|x l IH]; [cbv [fmap list_fmap Rsum foldr]; lra|].
  rewrite !fmap_cons, !Rsum_cons, IH. lra.
Qed.

Lemma Rsum_const {A} (c : R) (l : list A) :
  Rsum ((λ _, c) <$> l) = INR (length l) * c.
Proof.
  induction l as [|x l IH]; [cbv [fmap list_fmap Rsum foldr length INR]; lra|].
  rewrite fmap_cons, Rsum_cons, IH.
  change (length (x :: l)) with (S (length l)). rewrite S_INR. lra.
Qed.

Lemma Rsum_le {A} (f g : A → R) (l : list A) :
  Forall (λ x, f x <= g x) l → Rsum (f <$> l) <= Rsum (g <$> l).
Proof.
  induction 1 as [|x l Hx _ IH]; [cbv [fmap list_fmap Rsum foldr]; lra|].
  rewrite !fmap_cons, !Rsum_cons. lra.
Qed.

Lemma Rsum_ext {A} (f g : A → R) (l : list A) :
  Forall (λ x, f x = g x) l → Rsum (f <$> l) = Rsum (g <$> l).
Proof. intros H. f_equal. by apply Forall_fmap_ext. Qed.

(** Summing the indicator of one key over a duplicate-free list that
    holds it. *)
Lemma Rsum_indicator `{EqDecision K} (k : K) (y : R) (ks : list K) :
  NoDup ks → k ∈ ks →
  Rsum ((λ i, if decide (k = i) then y else 0) <$> ks) = y.
Proof.
  induction 1 as [|i ks Hi Hnd IH]; [by intros ?%elem_of_nil|].
  rewrite fmap_cons, Rsum_cons. intros [->|Hin]%elem_of_cons.
  - rewrite decide_True by done.
    rewrite (Rsum_ext _ (λ _, 0)), Rsum_const; [lra|].
    apply Forall_forall. intros j Hj.
    rewrite decide_False; [done|]. by intros ->.
  - rewrite decide_False by (intros ->; done). rewrite IH by done. lra.
Qed.

(** A sum over keyed values is the sum, over the keys, of the sums of
    the values that carry each key. *)
Lemma Rsum_partition `{EqDecision K} (h : K → R → R) (ks : list K)
    (kv : list (K * R)) :
  NoDup ks → Forall (λ p, p.1 ∈ ks) kv →
  Rsum ((λ k, Rsum ((λ p, h p.1 p.2) <$> filter (λ p, p.1 = k) kv)) <$> ks)
  = Rsum ((λ p, h p.1 p.2) <$> kv).
Proof.
  intros Hnd. induction 1 as [|[c y] kv Hc _ IH].
  - rewrite (Rsum_ext _ (λ _, 0)), Rsum_const;
      [cbv [fmap list_fmap Rsum foldr]; lra|].
    by apply Forall_forall.
  - rewrite fmap_cons, Rsum_cons. simpl in *. rewrite <- IH.
    rewrite <- (Rsum_indicator c (h c y) ks Hnd Hc) at 1.
    rewrite <- Rsum_plus. apply Rsum_ext, Forall_forall. intros k _.
    rewrite filter_cons. simpl.
    destruct (decide (c = k)) as [->|Hne].
    + by rewrite fmap_cons, Rsum_cons.
    + lra.
Qed.

End Sums.

(** * Properties of the epsilon-identifiability metric *)

Section EpsilonIdentifiabilityFacts.

Import EpsilonIdentifiability.

Lemma np_zip_same_length {A B C} (f : A → B → C) a b :
  length a = length b → np_zip f a b = Some (zip_with f a b).
Proof. intros E. unfold np_zip. by rewrite decide_True. Qed.

(** Counting the negative differences is counting the identifiable
    rows. *)
Lemma np_count_diff (ext ins : list R) :
  length ext = length ins →
  np_count ((λ d, bool_decide (d < 0)) <$> zip_with Rminus ext ins)
  = length (flagged (length ins) ext ins).
Proof.
  unfold np_count, flagged.
  revert ins. induction ext as [|e ext IH]; intros [|x ins] E;
    simplify_eq/=; [done|].
  rewrite <- fmap_S_seq, !filter_cons. cbn [lookup list_lookup].
  assert (Hstep : length (filter (identifiable (e :: ext) (x :: ins))
                            (S <$> seq 0 (length ins)))
                  = length (filter (identifiable ext ins)
                              (seq 0 (length ins)))).
  { generalize (seq 0 (length ins)). intros l.
    induction l as [|i l IHl]; [done|].
    rewrite fmap_cons, !filter_cons.
    assert (identifiable (e :: ext) (x :: ins) (S i)
            ↔ identifiable ext ins i) as Hi by done.
    destruct (decide (identifiable ext ins i)) as [Y|N].
    - rewrite decide_True by (by apply Hi). simpl. by rewrite IHl.
    - rewrite decide_False by (by rewrite Hi). done. }
  specialize (IH ins E).
  destruct (decide (e - x < 0)) as [Y|N].
  - rewrite bool_decide_eq_true_2 by done.
    rewrite decide_True by done.
    rewrite decide_True by (unfold identifiable; simpl; lra).
    simpl. by rewrite IH, Hstep.
  - rewrite bool_decide_eq_false_2 by done.
    rewrite decide_False by done.
    rewrite decide_False by (unfold identifiable; simpl; lra).
    by rewrite IH, Hstep.
Qed.

Lemma flagged_length_le no ext ins : (length (flagged no ext ins) ≤ no)%nat.
Proof.
  unfold flagged.
  etrans; [apply length_filter|]. by rewrite length_seq.
Qed.

Lemma df_select_index_size data labs data' :
  df_select data labs = Some data' → index_size data' = index_size data.
Proof.
  unfold df_select. intros H.
  destruct (mapM _ labs); simplify_eq/=. done.
Qed.


Lemma numeric_only_index_size self self1 :
  numeric_only self = Some self1 →
  index_size (real_data self1) = index_size (real_data self).
Proof.
  unfold numeric_only. intros H.
  destruct (decide (nn_dist self = "euclid")); [|by simplify_eq].
  destruct (df_select (real_data self) _) as [r|] eqn:Er; simplify_eq/=.
  destruct (df_select (synt_data self) _) as [s|] eqn:Es; simplify_eq/=.
  by eapply df_select_index_size.
Qed.

Lemma numeric_only_results self self1 :
  numeric_only self = Some self1 → results self1 = results self.
Proof.
  unfold numeric_only. intros H.
  destruct (decide (nn_dist self = "euclid")); [|by simplify_eq].
  destruct (df_select (real_data self) _) as [r|]; simplify_eq/=.
  destruct (df_select (synt_data self) _) as [s|]; by simplify_eq/=.
Qed.

Variable _knn_distance :
  DataFrame → DataFrame → list string → nat → string → vector →
  option (list R * list nat).

(** What [evaluate] computes once the two distance vectors are known,
    one distance per real row. *)
Lemma evaluate_returns self self1 h d in_dists ext_distances idx1 idx2 :
  numeric_only self = Some self1 →
  _knn_distance (real_data self1) (real_data self1) (cat_cols self1) 1
    (nn_dist self1) (entropy_weights (real_data self1))
    = Some (in_dists, idx1) →
  _knn_distance (real_data self1) (synt_data self1) (cat_cols self1) 1
    (nn_dist self1) (entropy_weights (real_data self1))
    = Some (ext_distances, idx2) →
  length in_dists = index_size (real_data self) →
  length ext_distances = index_size (real_data self) →
  index_size (real_data self) ≠ 0%nat →
  h !! results self = Some d →
  evaluate _knn_distance self h
  = Some (results self, self1,
          <[results self :=
              <["eps_risk" :=
                  PyFloat (Fin (INR (length (flagged (index_size (real_data self))
                                               ext_distances in_dists))
                                / INR (index_size (real_data self))))]> d]> h).
Proof.
  intros H1 Hin Hext Lin Lext Hno Hd.
  unfold evaluate. rewrite H1. simpl.
  rewrite Hin, Hext. simpl.
  rewrite np_zip_same_length by congruence. simpl.
  rewrite (numeric_only_results _ _ H1), Hd. simpl.
  rewrite np_count_diff by congruence.
  rewrite (numeric_only_index_size _ _ H1), Lin.
  rewrite decide_False; [done|].
  by apply not_0_INR.
Qed.

Lemma evaluate_inv self h l self' h' :
  evaluate _knn_distance self h = Some (l, self', h') →
  numeric_only self = Some self' ∧ l = results self ∧
  ∃ d v, h !! results self = Some d ∧
         h' = <[results self := <["eps_risk" := PyFloat v]> d]> h.
Proof.
  unfold evaluate. intros H.
  destruct (numeric_only self) as [self1|] eqn:E1; [|done].
  pose proof (numeric_only_results _ _ E1) as Hres.
  simpl in H. rewrite Hres in H.
  destruct (_knn_distance _ (real_data self1) _ _ _ _) as [[ins ?]|]; [|done].
  simpl in H.
  destruct (_knn_distance _ _ _ _ _ _) as [[ext ?]|]; [|done].
  simpl in H.
  destruct (np_zip _ _ _) as [diff|]; [|done].
  simpl in H.
  destruct (h !! results self) as [d|] eqn:Ed; [|done].
  simpl in H. injection H as <- <- <-.
  eauto 10.
Qed.

(** C2: for a non-empty real data set and distance vectors [in_dists]
    and [ext_distances] with one entry per real row, [evaluate] returns
    and stores under ['eps_risk'] exactly the number of rows [i] with
    [ext_distances[i] < in_dists[i]] divided by the number of real
    rows; a row whose two distances are equal is not counted. *)
Theorem eps_risk_counts_strictly_closer_rows
    self self1 h d in_dists ext_distances idx1 idx2 :
  numeric_only self = Some self1 →
  _knn_distance (real_data self1) (real_data self1) (cat_cols self1) 1
    (nn_dist self1) (entropy_weights (real_data self1))
    = Some (in_dists, idx1) →
  _knn_distance (real_data self1) (synt_data self1) (cat_cols self1) 1
    (nn_dist self1) (entropy_weights (real_data self1))
    = Some (ext_distances, idx2) →
  length in_dists = index_size (real_data self) →
  length ext_distances = index_size (real_data self) →
  index_size (real_data self) ≠ 0%nat →
  h !! results self = Some d →
  let no := index_size (real_data self) in
  ∃ self' h',
    evaluate _knn_distance self h = Some (results self, self', h') ∧
    (h' !! results self) ≫= (.!! "eps_risk")
    = Some (PyFloat (Fin (INR (length (flagged no ext_distances in_dists))
                          / INR no))) ∧
    (∀ i, i ∈ flagged no ext_distances in_dists ↔
          ∃ e x, ext_distances !! i = Some e ∧ in_dists !! i = Some x ∧
                 e < x) ∧
    (∀ i e, ext_distances !! i = Some e → in_dists !! i = Some e →
            i ∉ flagged no ext_distances in_dists).
Proof.
  intros H1 Hin Hext Lin Lext Hno Hd no.
  assert (Hflag : ∀ i, i ∈ flagged no ext_distances in_dists ↔
            ∃ e x, ext_distances !! i = Some e ∧ in_dists !! i = Some x ∧
                   e < x).
  { intros i. unfold flagged. rewrite list_elem_of_filter, elem_of_seq.
    unfold identifiable. split.
    - intros [Hi _].
      destruct (ext_distances !! i) as [e|], (in_dists !! i) as [x|];
        try done. eauto.
    - intros (e & x & He & Hx & Hlt). rewrite He, Hx. split; [done|].
      apply lookup_lt_Some in Hx. subst no. lia. }
  eexists _, _. split; [by eapply evaluate_returns|].
  split; [|split; [done|]].
  - rewrite lookup_insert_eq. simpl. by rewrite lookup_insert_eq.
  - intros i e He Hx. rewrite Hflag. intros (e' & x' & ? & ? & ?).
    simplify_eq. lra.
Qed.

(** C4: for a non-empty real data set and distance vectors with one
    entry per real row, the identifiability score that [evaluate]
    stores is a number of the closed interval [0, 1]. *)
Theorem eps_risk_in_unit_interval
    self self1 h d in_dists ext_distances idx1 idx2 :
  numeric_only self = Some self1 →
  _knn_distance (real_data self1) (real_data self1) (cat_cols self1) 1
    (nn_dist self1) (entropy_weights (real_data self1))
    = Some (in_dists, idx1) →
  _knn_distance (real_data self1) (synt_data self1) (cat_cols self1) 1
    (nn_dist self1) (entropy_weights (real_data self1))
    = Some (ext_distances, idx2) →
  length in_dists = index_size (real_data self) →
  length ext_distances = index_size (real_data self) →
  index_size (real_data self) ≠ 0%nat →
  h !! results self = Some d →
  ∃ self' h' risk,
    evaluate _knn_distance self h = Some (results self, self', h') ∧
    (h' !! results self) ≫= (.!! "eps_risk") = Some (PyFloat (Fin risk)) ∧
    0 <= risk <= 1.
Proof.
  intros H1 Hin Hext Lin Lext Hno Hd.
  eexists _, _, _. split; [by eapply evaluate_returns|].
  split.
  - rewrite lookup_insert_eq. simpl. by rewrite lookup_insert_eq.
  - set (no := index_size (real_data self)) in *.
    pose proof (flagged_length_le no ext_distances in_dists) as Hle.
    apply le_INR in Hle.
    assert (0 < INR no) by (apply lt_0_INR; lia).
    pose proof (pos_INR (length (flagged no ext_distances in_dists))).
    by apply Rdiv_unit_interval.
Qed.


(** [EpsilonIdentifiability.evaluate] writes into the dictionary it was
    given. *)
Lemma eps_evaluate_in_place :
  updates_results_in_place (evaluate _knn_distance) ["eps_risk"%string].
Proof.
  intros self h d l self' h' Hd H.
  apply evaluate_inv in H as (H1 & -> & d0 & v & Hd0 & ->).
  simplify_eq. split; [done|].
  split; [by apply numeric_only_results|].
  eexists. split; [apply lookup_insert_eq|].
  intros k v' Hk Hv. rewrite lookup_insert_ne; [done|].
  intros <-. apply Hk. by left.
Qed.

End EpsilonIdentifiabilityFacts.

(** * Properties of the column entropy *)

Section ColumnEntropyFacts.

(** The entropy of a vector of positive counts. *)
Lemma entropy_counts (cs : list nat) :
  cs ≠ [] → Forall (λ c, 0 < c)%nat cs →
  entropy ((λ c, Fin (INR c)) <$> cs)
  = Fin (shannon_entropy ((λ c, INR c / INR (nat_sum cs)) <$> cs)).
Proof.
  intros Hne Hpos. unfold entropy, shannon_entropy.
  assert (Htot : np_sum ((λ c, Fin (INR c)) <$> cs) = Fin (INR (nat_sum cs))).
  { rewrite (list_fmap_compose INR Fin). by rewrite np_sum_Fin, Rsum_INR. }
  rewrite Htot.
  assert (HN : (0 < nat_sum cs)%nat).
  { destruct cs as [|c cs]; [done|]. inversion Hpos; subst.
    rewrite nat_sum_cons. lia. }
  apply lt_INR in HN. simpl in HN.
  set (N := INR (nat_sum cs)) in *.
  rewrite <- !list_fmap_compose.
  rewrite <- np_sum_Fin, <- list_fmap_compose.
  f_equal. apply Forall_fmap_ext. eapply Forall_impl; [exact Hpos|].
  intros c Hc. unfold compose, fdiv, entr.
  rewrite decide_False by lra.
  apply lt_INR in Hc. simpl in Hc.
  assert (0 < INR c / N) by (by apply Rdiv_lt_0_compat).
  rewrite decide_True by done. f_equal. lra.
Qed.

Lemma count_cons v x a :
  count v (x :: a) = ((if decide (x = v) then 1 else 0) + count v a)%nat.
Proof. unfold count. rewrite filter_cons. by destruct (decide (x = v)). Qed.

Lemma count_pos v a : v ∈ a → (0 < count v a)%nat.
Proof.
  induction 1 as [v a|v x a _ IH]; rewrite count_cons.
  - rewrite decide_True by done. lia.
  - lia.
Qed.


Lemma count_Forall v a : Forall (λ x, x = v) a → count v a = length a.
Proof.
  induction 1 as [|x a Hx _ IH]; [done|].
  rewrite count_cons, decide_True by done. simpl. lia.
Qed.

Lemma nat_sum_indicator (x : Z) (vs : list Z) :
  NoDup vs → x ∈ vs →
  nat_sum ((λ v, if decide (x = v) then 1 else 0)%nat <$> vs) = 1%nat.
Proof.
  induction 1 as [|v vs Hv Hnd IH]; [by intros ?%elem_of_nil|].
  rewrite fmap_cons, nat_sum_cons. intros [->|Hin]%elem_of_cons.
  - rewrite decide_True by done.
    assert (nat_sum ((λ v0, if decide (v = v0) then 1 else 0)%nat <$> vs)
            = 0%nat) as ->; [|done].
    clear IH Hnd. induction vs as [|w vs IHvs]; [done|].
    rewrite fmap_cons, nat_sum_cons.
    rewrite decide_False by (intros ->; apply Hv; by left).
    rewrite IHvs; [done|]. intros ?. apply Hv. by right.
  - rewrite decide_False by (intros ->; done). by rewrite IH.
Qed.

Lemma nat_sum_plus {A} (f g : A → nat) (l : list A) :
  nat_sum ((λ v, f v + g v)%nat <$> l)
  = (nat_sum (f <$> l) + nat_sum (g <$> l))%nat.
Proof.
  induction l as [|x l IH]; [done|].
  rewrite !fmap_cons, !nat_sum_cons, IH. lia.
Qed.

(** The counts of the distinct values add up to the length. *)
Lemma nat_sum_counts (vs a : list Z) :
  NoDup vs → (∀ x, x ∈ a → x ∈ vs) →
  nat_sum ((λ v, count v a) <$> vs) = length a.
Proof.
  intros Hnd. induction a as [|x a IH]; intros Hin.
  - induction vs as [|v vs IHvs]; [done|].
    rewrite fmap_cons, nat_sum_cons.
    rewrite IHvs; [done|by inversion Hnd|by intros ? ?%elem_of_nil].
  - erewrite (list_fmap_ext _ (λ v, (if decide (x = v) then 1 else 0)
                                    + count v a)%nat);
      [|intros; apply count_cons].
    rewrite nat_sum_plus, nat_sum_indicator, IH; try done.
    + intros y Hy. apply Hin. by right.
    + apply Hin. by left.
Qed.

Lemma np_unique_values (a : list Z) :
  NoDup (np_unique a).1 ∧ ∀ x, x ∈ (np_unique a).1 ↔ x ∈ a.
Proof.
  simpl. split.
  - rewrite merge_sort_Permutation. apply NoDup_remove_dups.
  - intros x. rewrite merge_sort_Permutation. apply elem_of_remove_dups.
Qed.

Lemma np_unique_counts (a : list Z) :
  (np_unique a).2 = (λ v, count v a) <$> (np_unique a).1.
Proof. done. Qed.

Lemma np_unique_counts_sum (a : list Z) :
  nat_sum (np_unique a).2 = length a.
Proof.
  rewrite np_unique_counts.
  destruct (np_unique_values a) as [Hnd Hin].
  apply nat_sum_counts; [done|]. intros x. apply Hin.
Qed.

Lemma np_unique_counts_pos (a : list Z) :
  Forall (λ c, 0 < c)%nat (np_unique a).2.
Proof.
  rewrite np_unique_counts. apply Forall_fmap, Forall_forall.
  intros v Hv. apply count_pos. by apply np_unique_values.
Qed.

Lemma np_unique_nonempty (a : list Z) : a ≠ [] → (np_unique a).2 ≠ [].
Proof.
  intros Hne E. apply (f_equal nat_sum) in E.
  rewrite np_unique_counts_sum in E. by destruct a.
Qed.


Lemma frequencies_counts (a : list Z) :
  frequencies a = (λ c, INR c / INR (length a)) <$> (np_unique a).2.
Proof. unfold frequencies. simpl. by rewrite <- list_fmap_compose. Qed.

Lemma column_entropy_shannon (labels : list R) :
  labels ≠ [] →
  _column_entropy labels
  = Fin (shannon_entropy (frequencies (np_round <$> labels))).
Proof.
  intros Hne. rewrite frequencies_counts. unfold _column_entropy.
  set (a := np_round <$> labels).
  assert (Ha : a ≠ []) by (subst a; by destruct labels).
  destruct (np_unique a) as [value counts] eqn:E.
  pose proof (np_unique_counts_sum a) as Hs.
  pose proof (np_unique_counts_pos a) as Hp.
  pose proof (np_unique_nonempty a Ha) as Hn.
  rewrite E in Hs, Hp, Hn. simpl in *.
  rewrite entropy_counts by done. by rewrite Hs.
Qed.

Lemma entropy_term_nonneg p : 0 < p → p <= 1 → 0 <= - (p * ln p).
Proof.
  intros H0 H1. destruct (decide (p = 1)) as [->|Hne].
  - rewrite ln_1. lra.
  - assert (ln p < ln 1) by (apply ln_increasing; lra).
    rewrite ln_1 in *. nra.
Qed.


Lemma frequencies_spec (a : list Z) p :
  p ∈ frequencies a →
  ∃ v, v ∈ a ∧ p = INR (count v a) / INR (length a).
Proof.
  rewrite frequencies_counts, np_unique_counts, <- list_fmap_compose.
  intros (v & -> & Hv)%list_elem_of_fmap.
  exists v. split; [by apply np_unique_values|done].
Qed.

Lemma frequencies_range (a : list Z) p :
  p ∈ frequencies a → 0 < p ∧ p <= 1.
Proof.
  intros (v & Hv & ->)%frequencies_spec.
  pose proof (count_pos v a Hv) as Hc. apply lt_INR in Hc. simpl in Hc.
  pose proof (length_filter (λ x, x = v) a) as Hle.
  fold (count v a) in Hle. apply le_INR in Hle.
  split; [apply Rdiv_lt_0_compat; lra|].
  apply Rdiv_unit_interval; lra.
Qed.


End ColumnEntropyFacts.

(** * Properties of the correlation ratio *)

Section CorrelationRatioFacts.

(** ** Factorisation *)

Lemma elem_of_first_unique (xs : list R) x : x ∈ first_unique xs ↔ x ∈ xs.
Proof.
  induction xs as [|y xs IH]; [done|]. simpl.
  rewrite !elem_of_cons, list_elem_of_filter, IH.
  destruct (decide (x = y)); tauto.
Qed.

Lemma NoDup_first_unique (xs : list R) : NoDup (first_unique xs).
Proof.
  induction xs as [|y xs IH]; [constructor|]. simpl. constructor.
  - rewrite list_elem_of_filter. tauto.
  - by apply NoDup_filter.
Qed.

Lemma index_of_lookup (x : R) (us : list R) :
  x ∈ us → us !! index_of x us = Some x.
Proof.
  induction us as [|u us IH]; [by intros ?%elem_of_nil|]. simpl.
  intros [->|Hin]%elem_of_cons.
  - by rewrite decide_True.
  - destruct (decide (u = x)) as [->|]; [done|]. by apply IH.
Qed.

Lemma lookup_index_of (x : R) (us : list R) i :
  NoDup us → us !! i = Some x → index_of x us = i.
Proof.
  intros Hnd. revert i. induction Hnd as [|u us Hu _ IH]; intros i; [done|].
  destruct i as [|i]; simpl.
  - intros [= ->]. by rewrite decide_True.
  - intros Hi. rewrite decide_False.
    + f_equal. by apply IH.
    + intros ->. apply Hu. by eapply list_elem_of_lookup_2.
Qed.

(** Every code up to the largest one is the code of some position. *)
Lemma factorize_dense (categories : list R) i :
  categories ≠ [] →
  (i ≤ max_list (pd_factorize categories).1)%nat →
  i ∈ (pd_factorize categories).1.
Proof.
  intros Hne Hi. simpl in *.
  set (us := first_unique categories) in *.
  assert (Hmax : max_list ((λ x, index_of x us) <$> categories)
                 ∈ (λ x, index_of x us) <$> categories).
  { apply max_list_elem_of. by destruct categories. }
  apply list_elem_of_fmap in Hmax as (x & Hx & Hin).
  rewrite Hx in Hi.
  assert (Hlt : (index_of x us < length us)%nat).
  { eapply lookup_lt_Some, index_of_lookup. by apply elem_of_first_unique. }
  destruct (lookup_lt_is_Some_2 us i) as [u Hu]; [lia|].
  apply list_elem_of_fmap. exists u. split.
  - symmetry. apply lookup_index_of; [apply NoDup_first_unique|done].
  - apply elem_of_first_unique. by eapply list_elem_of_lookup_2.
Qed.

(** ** The groups *)

Lemma argwhere_lookup (i : nat) (fcat : list nat) (ms pre : list R) :
  length fcat = length ms →
  Forall2 (λ k y, (pre ++ ms) !! k = Some y)
    (filter (λ p : nat * bool, p.2 = true)
       (imap (λ j b, ((length pre + j)%nat, b))
             ((λ c, bool_decide (c = i)) <$> fcat))).*1
    (group fcat ms i).
Proof.
  unfold group. revert ms pre.
  induction fcat as [|c fcat IH]; intros [|m ms] pre E; simplify_eq/=;
    [constructor|].
  rewrite !filter_cons. cbn [fst snd].
  assert (Hrest :
    Forall2 (λ k y, (pre ++ m :: ms) !! k = Some y)
      (filter (λ p : nat * bool, p.2 = true)
         (imap ((λ j b, ((length pre + j)%nat, b)) ∘ S)
               ((λ c, bool_decide (c = i)) <$> fcat))).*1
      (filter (λ p, p.1 = i) (zip fcat ms)).*2).
  { specialize (IH ms (pre ++ [m]) E).
    rewrite <- (assoc_L (++)) in IH. simpl in IH.
    erewrite imap_ext; [exact IH|].
    intros j b _. simpl. rewrite length_app. simpl. f_equal. lia. }
  destruct (decide (c = i)) as [->|Hne].
  - rewrite bool_decide_eq_true_2 by done.
    rewrite decide_True by done. rewrite !fmap_cons.
    constructor; [|exact Hrest]. cbn [fst].
    rewrite Nat.add_0_r. by apply list_lookup_middle.
  - rewrite bool_decide_eq_false_2 by done.
    rewrite decide_False by done. exact Hrest.
Qed.

Lemma cat_measures_group fcat ms i :
  length fcat = length ms → cat_measures fcat ms i = Some (group fcat ms i).
Proof.
  intros E. unfold cat_measures, np_argwhere.
  apply mapM_Some. apply (argwhere_lookup i fcat ms [] E).
Qed.

Lemma group_nonempty fcat ms i :
  length fcat = length ms → i ∈ fcat → group fcat ms i ≠ [].
Proof.
  intros E Hi. unfold group.
  apply list_elem_of_lookup in Hi as [k Hk].
  destruct (lookup_lt_is_Some_2 ms k) as [m Hm].
  { rewrite <- E. by eapply lookup_lt_Some. }
  assert ((i, m) ∈ filter (λ p : nat * R, p.1 = i) (zip fcat ms)) as Hin.
  { apply list_elem_of_filter. split; [done|].
    apply list_elem_of_lookup. exists k.
    rewrite lookup_zip_with. by rewrite Hk, Hm. }
  intros Hnil. apply fmap_nil_inv in Hnil. rewrite Hnil in Hin.
  by apply elem_of_nil in Hin.
Qed.

Lemma groups_partition (h : R → R) fcat ms n :
  length fcat = length ms →
  Forall (λ c, c < n)%nat fcat →
  Rsum ((λ k, Rsum (h <$> group fcat ms k)) <$> seq 0 n) = Rsum (h <$> ms).
Proof.
  intros E Hlt.
  pose proof (Rsum_partition (λ _ y, h y) (seq 0 n) (zip fcat ms)) as HP.
  cbn beta in HP.
  assert ((λ p : nat * R, h p.2) <$> zip fcat ms = h <$> ms) as Hz.
  { rewrite <- (snd_zip fcat ms) at 2 by lia.
    by rewrite <- list_fmap_compose. }
  rewrite Hz in HP. rewrite <- HP.
  - apply Rsum_ext, Forall_forall. intros k _. unfold group.
    by rewrite <- list_fmap_compose.
  - apply NoDup_seq.
  - apply Forall_forall. intros [c y] Hin. simpl.
    apply elem_of_zip_l in Hin. rewrite Forall_forall in Hlt.
    apply elem_of_seq. specialize (Hlt c Hin). lia.
Qed.

(** ** The two sums *)

Lemma zip_with_fmap_same {A B C D} (f : B → C → D) (g1 : A → B)
    (g2 : A → C) (l : list A) :
  zip_with f (g1 <$> l) (g2 <$> l) = (λ x, f (g1 x) (g2 x)) <$> l.
Proof.
  induction l as [|x l IH]; [done|].
  rewrite !fmap_cons. cbn [zip_with]. by rewrite IH.
Qed.

Lemma np_average_nonempty (g : list R) :
  g ≠ [] → np_average g = Fin (mean g).
Proof.
  intros Hne. unfold np_average, mean, fdiv.
  rewrite decide_False; [done|].
  apply not_0_INR. by destruct g.
Qed.

(** Sums of squared deviations around [T] and around the mean. *)
Lemma ss_decomposition (g : list R) (T : R) :
  g ≠ [] →
  total_ss g T
  = total_ss g (mean g) + INR (length g) * ((mean g - T) * (mean g - T)).
Proof.
  intros Hne. unfold total_ss.
  set (a := mean g).
  rewrite (Rsum_ext _ (λ y, (y - a) * (y - a)
                            + (2 * (a - T) * (y - a) + (a - T) * (a - T)))).
  2:{ apply Forall_forall. intros y _. lra. }
  rewrite Rsum_plus. f_equal.
  rewrite Rsum_plus, Rsum_scale, Rsum_const.
  rewrite (Rsum_plus (λ y, y) (λ _, - a)), Rsum_const, list_fmap_id.
  assert (INR (length g) ≠ 0) as Hn by (apply not_0_INR; by destruct g).
  assert (Rsum g = INR (length g) * a) as ->.
  { subst a. unfold mean. field. done. }
  lra.
Qed.

Lemma total_ss_nonneg ms T : 0 <= total_ss ms T.
Proof.
  unfold total_ss. apply Rsum_nonneg, Forall_fmap, Forall_forall.
  intros y _. apply square_nonneg.
Qed.

Lemma between_le_total (groups : list (list R)) (T : R) :
  Forall (λ g, g ≠ []) groups →
  0 <= between_groups_ss groups T ∧
  between_groups_ss groups T <= Rsum ((λ g, total_ss g T) <$> groups).
Proof.
  intros Hne. unfold between_groups_ss. split.
  - apply Rsum_nonneg, Forall_fmap, Forall_forall. intros g _.
    apply Rmult_le_pos; [apply pos_INR|apply square_nonneg].
  - apply Rsum_le. eapply Forall_impl; [exact Hne|].
    intros g Hg. simpl. rewrite (ss_decomposition g T Hg).
    pose proof (total_ss_nonneg g (mean g)). lra.
Qed.

Lemma groups_of_nonempty categories measurements :
  categories ≠ [] → length categories = length measurements →
  Forall (λ g, g ≠ []) (groups_of categories measurements).
Proof.
  intros Hne E. unfold groups_of.
  apply Forall_fmap, Forall_forall. intros i Hi%elem_of_seq.
  apply group_nonempty; [simpl; by rewrite length_fmap|].
  apply factorize_dense; [done|lia].
Qed.

Lemma groups_of_partition (h : R → R) categories measurements :
  length categories = length measurements →
  Rsum ((λ g, Rsum (h <$> g)) <$> groups_of categories measurements)
  = Rsum (h <$> measurements).
Proof.
  intros E. unfold groups_of. rewrite <- list_fmap_compose.
  apply groups_partition; [simpl; by rewrite length_fmap|].
  apply Forall_forall. intros c Hc.
  apply max_list_elem_of_le in Hc. lia.
Qed.

Lemma mapM_total {A B} (f : A → option B) (g : A → B) (l : list A) :
  Forall (λ x, f x = Some (g x)) l → mapM f l = Some (g <$> l).
Proof.
  intros H. apply mapM_Some. apply Forall2_fmap_r.
  induction H; constructor; done.
Qed.

(** On aligned, non-empty columns the two sums of [_correlation_ratio]
    are the between-groups and the total sum of squares around the
    grand mean. *)
Lemma correlation_ratio_terms_value categories measurements :
  categories ≠ [] → length categories = length measurements →
  correlation_ratio_terms categories measurements
  = Some (Fin (between_groups_ss (groups_of categories measurements)
                 (mean measurements)),
          Fin (total_ss measurements (mean measurements))).
Proof.
  intros Hne E.
  pose proof (groups_of_nonempty _ _ Hne E) as HG.
  pose proof (λ h, groups_of_partition h _ _ E) as HP.
  unfold correlation_ratio_terms, groups_of in *. cbn [pd_factorize fst] in *.
  set (fcat := (λ x, index_of x (first_unique categories)) <$> categories) in *.
  assert (np_max fcat = Some (max_list fcat)) as ->.
  { subst fcat. by destruct categories. }
  cbn [mbind option_bind].
  rewrite (mapM_total _ (group fcat measurements)).
  2:{ apply Forall_forall. intros i _. apply cat_measures_group.
      subst fcat. by rewrite length_fmap. }
  cbn [mbind option_bind].
  set (G := group fcat measurements <$> seq 0 (max_list fcat + 1)) in *.
  set (T := mean measurements).
  assert (Havg : np_average <$> G = (λ g, Fin (mean g)) <$> G).
  { apply Forall_fmap_ext. eapply Forall_impl; [exact HG|].
    intros g Hg. by apply np_average_nonempty. }
  rewrite Havg.
  assert (Hn : INR (length measurements) ≠ 0).
  { apply not_0_INR. rewrite <- E. by destruct categories. }
  assert (Htot : fdiv (np_sum (zip_with fmul ((λ g, Fin (mean g)) <$> G)
                                 ((λ g : list R, Fin (INR (length g))) <$> G)))
                      (np_sum ((λ g : list R, Fin (INR (length g))) <$> G))
                 = Fin T).
  { rewrite zip_with_fmap_same.
    rewrite (list_fmap_compose (λ g : list R, mean g * INR (length g)) Fin G
             : (λ g : list R, fmul (Fin (mean g)) (Fin (INR (length g)))) <$> G
               = _).
    rewrite (list_fmap_compose (λ g : list R, INR (length g)) Fin G
             : (λ g : list R, Fin (INR (length g))) <$> G = _).
    rewrite !np_sum_Fin.
    assert (Rsum ((λ g : list R, mean g * INR (length g)) <$> G)
            = Rsum measurements) as ->.
    { transitivity (Rsum (id <$> measurements));
        [|by rewrite list_fmap_id].
      rewrite <- (HP id). apply Rsum_ext.
      eapply Forall_impl; [exact HG|]. intros g Hg. simpl.
      rewrite list_fmap_id. unfold mean. field.
      apply not_0_INR. by destruct g. }
    assert (Rsum ((λ g : list R, INR (length g)) <$> G)
            = INR (length measurements)) as ->.
    { rewrite <- (Rmult_1_r (INR (length measurements))).
      rewrite <- (Rsum_const 1 measurements), <- (HP (λ _, 1)).
      apply Rsum_ext, Forall_forall. intros g _. simpl.
      rewrite Rsum_const. lra. }
    unfold fdiv. by rewrite decide_False. }
  rewrite Htot. f_equal. f_equal.
  - rewrite <- list_fmap_compose, zip_with_fmap_same.
    unfold between_groups_ss.
    rewrite <- np_sum_Fin, <- list_fmap_compose. done.
  - unfold total_ss. rewrite <- np_sum_Fin, <- list_fmap_compose. done.
Qed.

Lemma mean_constant (ms : list R) c :
  ms ≠ [] → Forall (λ y, y = c) ms → mean ms = c.
Proof.
  intros Hne Hc. unfold mean.
  assert (Rsum ms = INR (length ms) * c) as ->.
  { rewrite <- (Rsum_const c ms). rewrite <- (list_fmap_id ms) at 1.
    apply Rsum_ext. eapply Forall_impl; [exact Hc|]. by intros y ->. }
  field. apply not_0_INR. by destruct ms.
Qed.

Lemma total_ss_constant (ms : list R) :
  ms ≠ [] → (∀ x y, x ∈ ms → y ∈ ms → x = y) → total_ss ms (mean ms) = 0.
Proof.
  intros Hne Hc. destruct ms as [|c ms]; [done|].
  assert (Forall (λ y, y = c) (c :: ms)) as Hall.
  { apply Forall_forall. intros y Hy. apply Hc; [done|by left]. }
  rewrite (mean_constant _ c) by done. unfold total_ss.
  rewrite (Rsum_ext _ (λ _, 0)), Rsum_const; [lra|].
  eapply Forall_impl; [exact Hall|]. intros y ->. lra.
Qed.

(** The between-groups sum of squares is at most the total one. *)
Lemma between_le_total_ss categories measurements :
  categories ≠ [] → length categories = length measurements →
  0 <= between_groups_ss (groups_of categories measurements)
         (mean measurements)
    <= total_ss measurements (mean measurements).
Proof.
  intros Hne E.
  pose proof (groups_of_nonempty _ _ Hne E) as HG.
  destruct (between_le_total (groups_of categories measurements)
              (mean measurements) HG) as [H0 Hle].
  split; [done|]. etrans; [exact Hle|]. right.
  apply (groups_of_partition
           (λ y, (y - mean measurements) * (y - mean measurements)) _ _ E).
Qed.

Lemma correlation_ratio_finite categories measurements :
  categories ≠ [] → length categories = length measurements →
  ∃ eta, _correlation_ratio categories measurements = Some (Fin eta).
Proof.
  intros Hne E. unfold _correlation_ratio.
  rewrite (correlation_ratio_terms_value _ _ Hne E).
  cbn [mbind option_bind].
  pose proof (between_le_total_ss _ _ Hne E) as Hle.
  unfold feqb, fdiv. case_bool_decide; [by eexists|].
  rewrite decide_False by lra. by eexists.
Qed.


End CorrelationRatioFacts.

(** * Sums over two-dimensional arrays *)

Section MonoidSums.

Context {A : Type} (op : A → A → A) (e : A).
Hypothesis op_assoc : ∀ x y z, op x (op y z) = op (op x y) z.
Hypothesis op_comm : ∀ x y, op x y = op y x.
Hypothesis op_unit : ∀ x, op e x = x.

Local Abbreviation msum := (msum op e).

Lemma msum_cons x l : msum (x :: l) = op x (msum l).
Proof. done. Qed.

Lemma msum_nil : msum [] = e.
Proof. done. Qed.

Lemma msum_app l k : msum (l ++ k) = op (msum l) (msum k).
Proof.
  induction l as [|x l IH].
  - by rewrite app_nil_l, msum_nil, op_unit.
  - by rewrite <- app_comm_cons, !msum_cons, IH, op_assoc.
Qed.

Lemma msum_concat (ls : list (list A)) : msum (concat ls) = msum (msum <$> ls).
Proof.
  induction ls as [|l ls IH]; [done|].
  rewrite fmap_cons, msum_cons, <- IH. apply msum_app.
Qed.

Lemma msum_op {B} (f g : B → A) (l : list B) :
  msum ((λ x, op (f x) (g x)) <$> l) = op (msum (f <$> l)) (msum (g <$> l)).
Proof.
  induction l as [|x l IH].
  - by rewrite !fmap_nil, msum_nil, op_unit.
  - rewrite !fmap_cons, !msum_cons, IH, !op_assoc. f_equal.
    rewrite <- !op_assoc. f_equal. apply op_comm.
Qed.

Lemma msum_unit {B} (l : list B) : msum ((λ _, e) <$> l) = e.
Proof.
  induction l as [|x l IH]; [done|].
  by rewrite fmap_cons, msum_cons, IH, op_unit.
Qed.

(** Summing row by row is summing column by column. *)
Lemma msum_exchange {B C} (f : B → C → A) (rows : list B) (cols : list C) :
  msum ((λ r, msum (f r <$> cols)) <$> rows)
  = msum ((λ c, msum ((λ r, f r c) <$> rows)) <$> cols).
Proof.
  induction rows as [|r rows IH].
  - rewrite fmap_nil, msum_nil. symmetry. apply (msum_unit cols).
  - rewrite fmap_cons, msum_cons, IH, <- msum_op.
    f_equal.
Qed.

Lemma msum_table {B C} (f : B → C → A) (rows : list B) (cols : list C) :
  msum (concat (table_of f rows cols))
  = msum (concat (table_of (λ c r, f r c) cols rows)).
Proof.
  rewrite !msum_concat. unfold table_of.
  rewrite <- !list_fmap_compose. apply msum_exchange.
Qed.

End MonoidSums.

(** * Properties of Cramér's V *)

Section ContingencyFacts.

Lemma fadd_assoc x y z : fadd x (fadd y z) = fadd (fadd x y) z.
Proof. destruct x, y, z; simpl; try done. f_equal. lra. Qed.

Lemma fadd_comm x y : fadd x y = fadd y x.
Proof. destruct x, y; simpl; try done. f_equal. lra. Qed.

Lemma fadd_0_l x : fadd (Fin 0) x = x.
Proof. destruct x; simpl; try done. f_equal. lra. Qed.

Lemma np_sum_table {B C} (f : B → C → float) rows cols :
  np_sum (concat (table_of f rows cols))
  = np_sum (concat (table_of (λ c r, f r c) cols rows)).
Proof. apply (msum_table fadd (Fin 0) fadd_assoc fadd_comm fadd_0_l). Qed.

Lemma nat_sum_table {B C} (f : B → C → nat) rows cols :
  nat_sum (concat (table_of f rows cols))
  = nat_sum (concat (table_of (λ c r, f r c) cols rows)).
Proof.
  apply (msum_table Nat.add 0%nat); intros; lia.
Qed.

Lemma nat_sum_exchange {B C} (f : B → C → nat) rows cols :
  nat_sum ((λ r, nat_sum (f r <$> cols)) <$> rows)
  = nat_sum ((λ c, nat_sum ((λ r, f r c) <$> rows)) <$> cols).
Proof.
  apply (msum_exchange Nat.add 0%nat); intros; lia.
Qed.

(** ** Arrays given by a function of the row and column labels *)

Lemma table_shape_table_of {A B C} (f : A → B → C) rows cols :
  rows ≠ [] → table_shape (table_of f rows cols) = (length rows, length cols).
Proof.
  intros Hne. destruct rows as [|r rows]; [done|].
  unfold table_shape, table_of. simpl. by rewrite !length_fmap.
Qed.

Lemma row_sums_table_of {A B} (N : A → B → nat) rows cols :
  row_sums (table_of N rows cols)
  = (λ r, nat_sum (N r <$> cols)) <$> rows.
Proof. unfold row_sums, table_of. by rewrite <- list_fmap_compose. Qed.

Lemma col_sums_table_of {A B} (N : A → B → nat) rows cols :
  rows ≠ [] →
  col_sums (table_of N rows cols)
  = (λ c, nat_sum ((λ r, N r c) <$> rows)) <$> cols.
Proof.
  intros Hne. unfold col_sums. rewrite table_shape_table_of by done.
  cbn [snd].
  apply (list_eq_same_length _ _ (length cols)).
  - by rewrite length_fmap.
  - by rewrite length_fmap, length_seq.
  - intros j x y Hj Hx Hy.
    rewrite list_lookup_fmap, lookup_seq_lt in Hx by done.
    rewrite list_lookup_fmap in Hy.
    destruct (cols !! j) as [c|] eqn:Hc; simplify_eq/=.
    f_equal. unfold table_of. rewrite <- list_fmap_compose.
    apply list_fmap_ext. intros _ r _. simpl.
    by rewrite list_lookup_fmap, Hc.
Qed.

Lemma zip_with_table_of {A B C D E} (g : C → D → E) (f : A → B → C)
    (f' : A → B → D) rows cols :
  zip_with (zip_with g) (table_of f rows cols) (table_of f' rows cols)
  = table_of (λ r c, g (f r c) (f' r c)) rows cols.
Proof.
  unfold table_of. rewrite zip_with_fmap_same.
  apply list_fmap_ext. intros _ r _. apply zip_with_fmap_same.
Qed.

Lemma fmap_table_of {A B C D} (g : C → D) (f : A → B → C) rows cols :
  (λ row : list C, g <$> row) <$> table_of f rows cols
  = table_of (λ r c, g (f r c)) rows cols.
Proof.
  unfold table_of. rewrite <- list_fmap_compose.
  apply list_fmap_ext. intros _ r _. simpl. by rewrite <- list_fmap_compose.
Qed.

Lemma Exists_table_of {A B C} (P : C → Prop) (f : A → B → C) rows cols :
  Exists (Exists P) (table_of f rows cols)
  ↔ ∃ r c, r ∈ rows ∧ c ∈ cols ∧ P (f r c).
Proof.
  unfold table_of. rewrite Exists_fmap, Exists_exists. split.
  - intros (r & Hr & Hex). simpl in Hex.
    rewrite Exists_fmap, Exists_exists in Hex.
    destruct Hex as (c & Hc & HP). eauto.
  - intros (r & c & Hr & Hc & HP). exists r. split; [done|]. simpl.
    rewrite Exists_fmap, Exists_exists. eauto.
Qed.

Lemma table_of_ext {A B C} (f g : A → B → C) rows cols :
  (∀ r c, r ∈ rows → c ∈ cols → f r c = g r c) →
  table_of f rows cols = table_of g rows cols.
Proof.
  intros H. unfold table_of. apply list_fmap_ext.
  intros _ r Hr%list_elem_of_lookup_2. apply list_fmap_ext. intros _ c Hc%list_elem_of_lookup_2. by apply H.
Qed.

Lemma expected_freq_table_of {A B} (N : A → B → nat) rows cols :
  rows ≠ [] →
  expected_freq (table_of N rows cols)
  = table_of (expected_cell N rows cols) rows cols.
Proof.
  intros Hne. unfold expected_freq.
  rewrite row_sums_table_of, col_sums_table_of by done.
  unfold table_of, expected_cell. rewrite <- list_fmap_compose.
  apply list_fmap_ext. intros _ r _. simpl.
  by rewrite <- list_fmap_compose.
Qed.

Lemma expected_cell_swap {A B} (N : A → B → nat) rows cols r c :
  expected_cell (λ c r, N r c) cols rows c r = expected_cell N rows cols r c.
Proof.
  unfold expected_cell.
  rewrite <- (nat_sum_exchange N rows cols).
  by rewrite Rmult_comm.
Qed.

Lemma chi2_contingency_no_rows {A B} (f : A → B → nat) (rows : list A) :
  chi2_contingency (table_of f rows []) = None.
Proof.
  unfold chi2_contingency, table_of, table_shape.
  destruct rows as [|r rows]; simpl; [done|].
  rewrite decide_True; [done|lia].
Qed.

(** The statistic of the transposed table. *)
Lemma chi2_contingency_swap {A B} (N : A → B → nat) rows cols :
  chi2_contingency (table_of N rows cols)
  = chi2_contingency (table_of (λ c r, N r c) cols rows).
Proof.
  destruct (decide (rows = [])) as [->|Hr].
  { by rewrite chi2_contingency_no_rows. }
  destruct (decide (cols = [])) as [->|Hc].
  { by rewrite chi2_contingency_no_rows. }
  unfold chi2_contingency.
  rewrite !table_shape_table_of, !expected_freq_table_of by done.
  rewrite (table_of_ext (expected_cell (λ c r, N r c) cols rows)
             (λ c r, expected_cell N rows cols r c))
    by (intros; apply expected_cell_swap).
  set (E := expected_cell N rows cols).
  replace (length cols * length rows)%nat
    with (length rows * length cols)%nat by lia.
  replace (length cols + length rows)%nat
    with (length rows + length cols)%nat by lia.
  destruct (decide (length rows * length cols = 0)%nat); [done|].
  rewrite (decide_ext
             (Exists (Exists (λ e, feqb e (Fin 0) = true))
                (table_of (λ c r, E r c) cols rows))
             (Exists (Exists (λ e, feqb e (Fin 0) = true))
                (table_of E rows cols))).
  2:{ rewrite !Exists_table_of.
      split; intros (x & y & ? & ? & ?); eauto. }
  destruct (decide (Exists _ (table_of E rows cols))); [done|].
  cbv zeta.
  destruct (decide (_ = 0%Z)); [done|].
  rewrite !fmap_table_of.
  destruct (decide (_ = 1%Z)).
  - rewrite !zip_with_table_of. f_equal. apply np_sum_table.
  - rewrite !zip_with_table_of. f_equal. apply np_sum_table.
Qed.

(** ** The cross-tabulation of swapped arguments *)

Lemma zip_swap {A B} (a : list A) (b : list B) :
  zip b a = prod_swap <$> zip a b.
Proof.
  revert b. induction a as [|x a IH]; intros [|y b]; try done.
  simpl. by rewrite IH.
Qed.

Lemma count_pair_swap (l : list (R * R)) r c :
  length (filter (λ p, p = (c, r)) (prod_swap <$> l))
  = length (filter (λ p, p = (r, c)) l).
Proof.
  induction l as [|[x y] l IH]; [done|].
  rewrite fmap_cons, !filter_cons. simpl.
  destruct (decide ((y, x) = (c, r))), (decide ((x, y) = (r, c)));
    simplify_eq/=; by rewrite ?IH.
Qed.

Lemma pd_crosstab_table var1 var2 :
  pd_crosstab var1 var2
  = table_of (λ r c, length (filter (λ p, p = (r, c)) (zip var1 var2)))
      (sorted_unique (zip var1 var2).*1) (sorted_unique (zip var1 var2).*2).
Proof. done. Qed.

Lemma pd_crosstab_swap var1 var2 :
  pd_crosstab var2 var1
  = table_of (λ c r, length (filter (λ p, p = (r, c)) (zip var1 var2)))
      (sorted_unique (zip var1 var2).*2) (sorted_unique (zip var1 var2).*1).
Proof.
  rewrite pd_crosstab_table, (zip_swap var1 var2).
  rewrite <- !list_fmap_compose.
  apply table_of_ext. intros c r _ _. apply count_pair_swap.
Qed.

Lemma sorted_unique_nil (l : list R) : sorted_unique l = [] ↔ l = [].
Proof.
  unfold sorted_unique. split; [|by intros ->].
  intros E. destruct l as [|x l]; [done|].
  assert (x ∈ merge_sort Rle (remove_dups (x :: l))) as Hx.
  { rewrite merge_sort_Permutation, elem_of_remove_dups. by left. }
  rewrite E in Hx. by apply elem_of_nil in Hx.
Qed.

Lemma crosstab_labels_nil var1 var2 :
  sorted_unique (zip var1 var2).*1 = []
  ↔ sorted_unique (zip var1 var2).*2 = [].
Proof.
  rewrite !sorted_unique_nil. split; intros E%fmap_nil_inv; by rewrite E.
Qed.


(** ** The statistic is a number *)

Lemma np_sum_finite (v : vector) :
  Forall is_finite v → is_finite (np_sum v).
Proof.
  induction 1 as [|x v Hx _ IH]; [done|].
  rewrite np_sum_cons. by destruct x, (np_sum v).
Qed.

Lemma Forall_concat_table_of {A B C} (P : C → Prop) (f : A → B → C)
    rows cols :
  (∀ r c, r ∈ rows → c ∈ cols → P (f r c)) →
  Forall P (concat (table_of f rows cols)).
Proof.
  intros H. apply Forall_concat, Forall_fmap, Forall_forall.
  intros r Hr. apply Forall_fmap, Forall_forall. intros c Hc. by apply H.
Qed.

Lemma yates_finite o e : is_finite o → is_finite e → is_finite (yates o e).
Proof. by destruct o, e. Qed.

Lemma chi2_contingency_finite {A B} (N : A → B → nat) rows cols :
  rows ≠ [] → cols ≠ [] →
  (∀ r, r ∈ rows → 0 < nat_sum (N r <$> cols))%nat →
  (∀ c, c ∈ cols → 0 < nat_sum ((λ r, N r c) <$> rows))%nat →
  ∃ stat, chi2_contingency (table_of N rows cols) = Some stat ∧
          is_finite stat.
Proof.
  intros Hr Hc Hrs Hcs.
  assert (Htot : (0 < nat_sum ((λ r, nat_sum (N r <$> cols)) <$> rows))%nat).
  { destruct rows as [|r rows]; [done|].
    rewrite fmap_cons, nat_sum_cons.
    specialize (Hrs r (list_elem_of_here _ _)). lia. }
  assert (HE : ∀ r c, r ∈ rows → c ∈ cols →
               ∃ e, expected_cell N rows cols r c = Fin e ∧ e ≠ 0).
  { intros r c Hr' Hc'. unfold expected_cell, fdiv.
    apply lt_INR in Htot. simpl in Htot.
    rewrite decide_False by lra.
    eexists. split; [done|].
    specialize (Hrs r Hr'). specialize (Hcs c Hc').
    apply lt_INR in Hrs, Hcs. simpl in Hrs, Hcs.
    apply Rmult_integral_contrapositive_currified.
    - apply Rmult_integral_contrapositive_currified; lra.
    - apply Rinv_neq_0_compat. lra. }
  unfold chi2_contingency.
  rewrite table_shape_table_of, expected_freq_table_of by done.
  rewrite decide_False by (destruct rows, cols; simpl; try done; lia).
  rewrite decide_False.
  2:{ rewrite Exists_table_of. intros (r & c & Hr' & Hc' & Hz).
      destruct (HE r c Hr' Hc') as (e & He & Hne). rewrite He in Hz.
      simpl in Hz. by apply bool_decide_eq_true in Hz. }
  cbv zeta. destruct (decide (_ = 0%Z)); [by eexists|].
  rewrite fmap_table_of.
  destruct (decide (_ = 1%Z)); rewrite !zip_with_table_of;
    (eexists; split; [done|]);
    apply np_sum_finite, Forall_concat_table_of; intros r c Hr' Hc';
    destruct (HE r c Hr' Hc') as (ex & -> & Hne).
  - destruct (yates _ _) eqn:Hy; [|by simpl in Hy].
    unfold fdiv, fmul, fsub. simpl. by rewrite decide_False.
  - unfold fdiv, fmul, fsub. simpl. by rewrite decide_False.
Qed.

Lemma elem_of_sorted_unique (l : list R) x : x ∈ sorted_unique l ↔ x ∈ l.
Proof.
  unfold sorted_unique. by rewrite merge_sort_Permutation, elem_of_remove_dups.
Qed.

Lemma eps16_pos : 0 < eps16.
Proof. unfold eps16. apply Rinv_0_lt_compat, pow_lt. lra. Qed.

(** On non-empty aligned columns Cramér's V is a number. *)
Lemma cramers_V_finite (a b : list R) :
  a ≠ [] → length a = length b →
  ∃ v, _cramers_V a b = Some (Fin v).
Proof.
  intros Hne E. unfold _cramers_V. rewrite pd_crosstab_table.
  set (pairs := zip a b).
  set (N := λ r c, length (filter (λ p, p = (r, c)) pairs)).
  set (rows := sorted_unique pairs.*1). set (cols := sorted_unique pairs.*2).
  assert (pairs ≠ []) as Hp.
  { subst pairs. destruct a, b; simplify_eq/=; done. }
  assert (rows ≠ []) as Hr.
  { subst rows. rewrite sorted_unique_nil. by intros ?%fmap_nil_inv. }
  assert (cols ≠ []) as Hc.
  { subst cols. rewrite sorted_unique_nil. by intros ?%fmap_nil_inv. }
  assert (HN : ∀ r c, (r, c) ∈ pairs → (0 < N r c)%nat).
  { intros r c Hin. subst N. simpl.
    destruct (filter _ pairs) as [|q l] eqn:Hf; [|simpl; lia].
    assert ((r, c) ∈ filter (λ p, p = (r, c)) pairs) as Hin'
      by (by apply list_elem_of_filter).
    rewrite Hf in Hin'. by apply elem_of_nil in Hin'. }
  destruct (chi2_contingency_finite N rows cols Hr Hc) as (stat & -> & Hfin).
  - intros r Hin. apply elem_of_sorted_unique, list_elem_of_fmap in Hin
      as ([r' c] & -> & Hin).
    assert (c ∈ cols) as Hc'.
    { apply elem_of_sorted_unique, list_elem_of_fmap. by exists (r', c). }
    pose proof (HN _ _ Hin) as Hpos.
    assert (N r' c ∈ N r' <$> cols) as Hel
      by (apply list_elem_of_fmap; eauto).
    apply nat_sum_elem in Hel. simpl in *. lia.
  - intros c Hin. apply elem_of_sorted_unique, list_elem_of_fmap in Hin
      as ([r c'] & -> & Hin).
    assert (r ∈ rows) as Hr'.
    { apply elem_of_sorted_unique, list_elem_of_fmap. by exists (r, c'). }
    pose proof (HN _ _ Hin) as Hpos.
    assert (N r c' ∈ (λ r, N r c') <$> rows) as Hel
      by (apply list_elem_of_fmap; eauto).
    apply nat_sum_elem in Hel. simpl in *. lia.
  - cbn [mbind option_bind]. destruct stat as [x|]; [|done].
    rewrite table_shape_table_of by done. cbn [fst snd].
    unfold fdiv. rewrite decide_False; [by eexists|].
    pose proof eps16_pos.
    assert (0 <= IZR (Z.of_nat (nat_sum (concat (table_of N rows cols)))
                      * (Z.of_nat (length rows `min` length cols) - 1))).
    { apply IZR_le. apply Z.mul_nonneg_nonneg; [lia|].
      destruct rows, cols; simpl in *; try done; lia. }
    lra.
Qed.

End ContingencyFacts.

(** * Properties of the Pearson correlation *)

Section PearsonFacts.

Lemma total_ss_zero_constant v : total_ss v (mean v) = 0 → is_constant v.
Proof.
  unfold total_ss. intros E%Rsum_zero_inv.
  - rewrite Forall_fmap, Forall_forall in E.
    assert (∀ x, x ∈ v → x = mean v) as Hm.
    { intros x Hx. specialize (E x Hx). simpl in E.
      assert (x - mean v = 0) by (by apply Rsqr_0_uniq). lra. }
    intros x y Hx Hy. by rewrite (Hm x), (Hm y).
  - apply Forall_fmap, Forall_forall. intros x _. apply square_nonneg.
Qed.

Lemma total_ss_pos v : ¬ is_constant v → 0 < total_ss v (mean v).
Proof.
  intros Hv. pose proof (total_ss_nonneg v (mean v)).
  destruct (decide (total_ss v (mean v) = 0)) as [E|]; [|lra].
  by apply total_ss_zero_constant in E.
Qed.

Lemma not_constant_nonempty v : ¬ is_constant v → v ≠ [].
Proof. intros Hv ->. apply Hv. by intros x y ?%elem_of_nil. Qed.

Lemma nancorr_self_constant v : is_constant v → nancorr v v = NaN.
Proof.
  intros Hv. unfold nancorr.
  destruct (decide (length v < 1)%nat); [done|].
  assert (v ≠ []) as Hne by (destruct v; [simpl in *; lia|done]).
  pose proof (total_ss_constant v Hne Hv) as Hz.
  unfold total_ss, mean in Hz. cbv zeta. rewrite Hz.
  rewrite Rmult_0_l, sqrt_0. by rewrite decide_False by auto.
Qed.

Lemma nancorr_self_varying v : ¬ is_constant v → nancorr v v = Fin 1.
Proof.
  intros Hv. unfold nancorr.
  pose proof (not_constant_nonempty v Hv) as Hne.
  rewrite decide_False by (destruct v; [done|simpl; lia]).
  pose proof (total_ss_pos v Hv) as Hpos.
  unfold total_ss, mean in Hpos. cbv zeta.
  rewrite zip_with_diag.
  set (ss := Rsum _) in *.
  rewrite sqrt_square by lra.
  rewrite decide_True by lra.
  assert (ss / ss = 1) as -> by (field; lra).
  rewrite decide_False by lra. by rewrite decide_False by lra.
Qed.


End PearsonFacts.

(** * Properties of the mixed correlation matrix *)

Section MixedCorrelationFacts.

(** ** Columns of a well-formed frame *)

Lemma col_lookup_elem cols lab v :
  col_lookup cols lab = Some v → (lab, v) ∈ cols.
Proof.
  induction cols as [|[l w] cols IH]; [done|]. simpl.
  destruct (decide (l = lab)) as [->|].
  - intros [= ->]. by left.
  - intros H. right. by apply IH.
Qed.

Lemma column_length data lab :
  well_formed data → is_Some (df_getitem data lab) →
  length (column data lab) = index_size data ∧ column data lab ≠ [].
Proof.
  intros [Hpos Hlen] [v Hv]. unfold column. rewrite Hv. simpl.
  apply col_lookup_elem in Hv.
  rewrite Forall_forall in Hlen. specialize (Hlen _ Hv). simpl in Hlen.
  split; [done|]. intros ->. simpl in Hlen. lia.
Qed.

Lemma df_getitem_column data lab :
  is_Some (df_getitem data lab) →
  df_getitem data lab = Some (column data lab).
Proof. intros [v Hv]. unfold column. by rewrite Hv. Qed.

Lemma df_select_columns data labs :
  has_columns data labs →
  df_select data labs
  = Some (mkDataFrame (index_size data)
            ((λ lab, (lab, column data lab)) <$> labs)).
Proof.
  intros H. unfold df_select.
  rewrite (mapM_total _ (λ lab, (lab, column data lab))); [done|].
  eapply Forall_impl; [exact H|]. intros lab Hlab. simpl.
  by rewrite (df_getitem_column _ _ Hlab).
Qed.

Lemma df_corr_select data labs :
  df_corr (mkDataFrame (index_size data)
             ((λ lab, (lab, column data lab)) <$> labs))
  = table_of (λ a b, nancorr (column data a) (column data b)) labs labs.
Proof.
  unfold df_corr, table_of. simpl. rewrite <- list_fmap_compose.
  apply list_fmap_ext. intros _ a _. simpl.
  by rewrite <- list_fmap_compose.
Qed.

Lemma apply_mat_table data func labs1 labs2 :
  has_columns data labs1 → has_columns data labs2 →
  (∀ a b, a ∈ labs1 → b ∈ labs2 →
          is_Some (func (column data a) (column data b))) →
  _apply_mat data func labs1 labs2
  = Some (table_of (λ a b, default NaN
                             (func (column data a) (column data b)))
            labs1 labs2).
Proof.
  intros H1 H2 Hf. unfold _apply_mat, table_of.
  apply mapM_total, Forall_forall. intros a Ha.
  apply mapM_total, Forall_forall. intros b Hb.
  unfold has_columns in H1, H2. rewrite Forall_forall in H1, H2.
  rewrite (df_getitem_column _ _ (H1 a Ha)).
  rewrite (df_getitem_column _ _ (H2 b Hb)). simpl.
  by destruct (Hf a b Ha Hb) as [v ->].
Qed.

Lemma transpose_table_of {A B} (f : A → B → float) rows cols :
  transpose (length cols) (table_of f rows cols)
  = table_of (λ c r, f r c) cols rows.
Proof.
  unfold transpose.
  apply (list_eq_same_length _ _ (length cols)).
  - unfold table_of. by rewrite length_fmap.
  - by rewrite length_fmap, length_seq.
  - intros j x y Hj Hx Hy.
    rewrite list_lookup_fmap, lookup_seq_lt in Hx by done.
    unfold table_of in Hy. rewrite list_lookup_fmap in Hy.
    destruct (cols !! j) as [c|] eqn:Hc; simplify_eq/=.
    unfold table_of. rewrite <- list_fmap_compose.
    apply list_fmap_ext. intros _ r _. simpl.
    by rewrite list_lookup_fmap, Hc.
Qed.

(** ** The assembled matrix *)

(** On a well-formed frame that has the named columns
    [mixed_correlation] returns, and what it returns is the table of the
    associations over the axis with its diagonal forced. *)
Lemma mixed_correlation_value data num_cols cat_cols :
  well_formed data → has_columns data cat_cols → has_columns data num_cols →
  mixed_correlation data num_cols cat_cols
  = Some (force_diagonal
            (table_of (association data) (axis num_cols cat_cols)
               (axis num_cols cat_cols))).
Proof.
  intros Hwf Hcat Hnum. unfold mixed_correlation.
  rewrite (df_select_columns _ _ Hnum). cbn [fmap option_fmap option_map].
  cbn [mbind option_bind]. rewrite df_corr_select.
  assert (Hcol : ∀ a, a ∈ cat_cols ∨ a ∈ num_cols →
                 length (column data a) = index_size data ∧
                 column data a ≠ []).
  { intros a Ha. apply column_length; [done|].
    unfold has_columns in *. rewrite Forall_forall in Hcat, Hnum.
    destruct Ha; auto. }
  assert (HV : ∀ a b, a ∈ cat_cols → b ∈ cat_cols →
               is_Some (_cramers_V (column data a) (column data b))).
  { intros a b Ha Hb.
    destruct (Hcol a (or_introl Ha)) as [La Na].
    destruct (Hcol b (or_introl Hb)) as [Lb Nb].
    destruct (cramers_V_finite (column data a) (column data b)) as [v Hv];
      [done|congruence|]. by rewrite Hv. }
  assert (HE : ∀ a b, a ∈ cat_cols → b ∈ num_cols →
               is_Some (_correlation_ratio (column data a) (column data b))).
  { intros a b Ha Hb.
    destruct (Hcol a (or_introl Ha)) as [La Na].
    destruct (Hcol b (or_intror Hb)) as [Lb Nb].
    destruct (correlation_ratio_finite (column data a) (column data b))
      as [v Hv]; [done|congruence|]. by rewrite Hv. }
  rewrite (apply_mat_table data _cramers_V cat_cols cat_cols) by done.
  cbn [mbind option_bind].
  rewrite (apply_mat_table data _correlation_ratio cat_cols num_cols)
    by done.
  cbn [mbind option_bind]. do 2 f_equal.
  rewrite transpose_table_of. unfold table_of, axis.
  rewrite !zip_with_fmap_same, fmap_app, <- !list_fmap_compose.
  f_equal; apply list_fmap_ext; intros _ a _; simpl;
    by rewrite fmap_app, <- !list_fmap_compose.
Qed.

(** ** Forcing the diagonal *)

Lemma omap_seq_lookup {A B} (g : nat → option B) (h : A → B) (l : list A) k :
  (∀ i x, l !! i = Some x → g (k + i)%nat = Some (h x)) →
  omap g (seq k (length l)) = h <$> l.
Proof.
  revert k. induction l as [|x l IH]; intros k H; [done|].
  simpl. rewrite <- (Nat.add_0_r k) at 1. rewrite (H 0%nat x) by done.
  f_equal. apply IH. intros i y Hi.
  replace (S k + i)%nat with (k + S i)%nat by lia. by apply H.
Qed.

Lemma np_diagonal_table_of {A} (f : A → A → float) (l : list A) :
  np_diagonal (table_of f l l) = (λ a, f a a) <$> l.
Proof.
  unfold np_diagonal, table_of. rewrite length_fmap.
  apply omap_seq_lookup. intros i a Ha. simpl.
  rewrite list_lookup_fmap, Ha.
  cbn [fmap option_fmap option_map mbind option_bind].
  by rewrite list_lookup_fmap, Ha.
Qed.

(** The entry of the returned matrix at a position of the axis. *)
Lemma force_diagonal_lookup {A} (f : A → A → float) (l : list A) i j a b :
  l !! i = Some a → l !! j = Some b →
  force_diagonal (table_of f l l) !! i ≫= (.!! j)
  = Some (fadd (f a b)
               (if decide (i = j) then fsub (Fin 1) (f a a) else Fin 0)).
Proof.
  intros Ha Hb. unfold force_diagonal, mat_add, np_diag.
  rewrite np_diagonal_table_of.
  rewrite lookup_zip_with. unfold table_of at 1.
  rewrite list_lookup_fmap, Ha.
  cbn [fmap option_fmap option_map mbind option_bind].
  rewrite list_lookup_imap, !list_lookup_fmap, Ha.
  cbn [fmap option_fmap option_map mbind option_bind].
  rewrite lookup_zip_with, list_lookup_fmap, Hb.
  cbn [fmap option_fmap option_map mbind option_bind].
  rewrite list_lookup_imap, !list_lookup_fmap, Hb.
  cbn [fmap option_fmap option_map mbind option_bind].
  done.
Qed.




Lemma axis_lookup_num num_cols cat_cols j lab :
  num_cols !! j = Some lab →
  axis num_cols cat_cols !! (length cat_cols + j)%nat = Some (inr lab).
Proof.
  intros H. unfold axis. rewrite lookup_app_r; rewrite length_fmap; [|lia].
  replace (length cat_cols + j - length cat_cols)%nat with j by lia.
  by rewrite list_lookup_fmap, H.
Qed.



(** The diagonal entry of a constant numeric column. *)
Lemma mixed_correlation_constant_column data num_cols cat_cols j lab :
  well_formed data → has_columns data cat_cols → has_columns data num_cols →
  num_cols !! j = Some lab → is_constant (column data lab) →
  ∃ M, mixed_correlation data num_cols cat_cols = Some M ∧
       M !! (length cat_cols + j)%nat
         ≫= (.!! (length cat_cols + j)%nat) = Some NaN.
Proof.
  intros Hwf Hcat Hnum Hj Hv. eexists.
  split; [by apply mixed_correlation_value|].
  pose proof (axis_lookup_num _ cat_cols _ _ Hj) as Hax.
  rewrite (force_diagonal_lookup _ _ _ _ _ _ Hax Hax).
  simpl. by rewrite nancorr_self_constant.
Qed.


(** ** Entries that are numbers *)





(** ** The norm of the difference of a matrix with itself *)







(** ** The numeric block *)

(** Off the diagonal the numeric block holds the Pearson correlation of
    the two columns. *)
Lemma mixed_correlation_numeric_block data num_cols cat_cols :
  well_formed data → has_columns data cat_cols → has_columns data num_cols →
  ∃ M, mixed_correlation data num_cols cat_cols = Some M ∧
       ∀ i j a b, num_cols !! i = Some a → num_cols !! j = Some b →
                  i ≠ j →
                  M !! (length cat_cols + i)%nat
                    ≫= (.!! (length cat_cols + j)%nat)
                  = Some (fadd (nancorr (column data a) (column data b))
                               (Fin 0)).
Proof.
  intros Hwf Hcat Hnum. eexists.
  split; [by apply mixed_correlation_value|].
  intros i j a b Hi Hj Hne.
  pose proof (axis_lookup_num _ cat_cols _ _ Hi) as Hai.
  pose proof (axis_lookup_num _ cat_cols _ _ Hj) as Haj.
  rewrite (force_diagonal_lookup _ _ _ _ _ _ Hai Haj).
  by rewrite decide_False by lia.
Qed.

End MixedCorrelationFacts.

(** * Properties of the mixed-correlation metric *)

Section MixedCorrelationMetricFacts.

Import MixedCorrelation.

Variable plot_matrix_heatmap : matrix → string → string → option unit.


(** What [evaluate] returns: a new dictionary, bound to [self.results],
    that holds the stored keys only. *)
Lemma mixed_evaluate_inv self mixed_corr return_mats h l self' h' :
  evaluate plot_matrix_heatmap self mixed_corr return_mats h
  = Some (l, self', h') →
  l = fresh (dom h) ∧
  self' = set_results (set_mixed_corr self mixed_corr) l ∧
  ∃ d : dict, h' = <[l := d]> h ∧
              is_Some (d !! "corr_mat_diff") ∧
              ∀ k, is_Some (d !! k) → k ∈ stored_keys.
Proof.
  unfold evaluate. intros H.
  destruct (if mixed_corr then _ else _) as [[[r_corr f_corr] corr_mat]|];
    [|done].
  simpl in H. injection H as <- <- <-.
  split; [done|]. split; [done|].
  eexists. split; [done|].
  unfold stored_keys.
  destruct return_mats; split;
    try (rewrite ?lookup_insert_ne by done; by rewrite lookup_singleton_eq);
    intros k [v Hk];
    repeat (apply lookup_insert_Some in Hk as [[<- _]|[_ Hk]];
            [set_solver|]);
    apply lookup_singleton_Some in Hk as [<- _]; set_solver.
Qed.

(** What [evaluate] computes in mixed mode. *)
Lemma mixed_evaluate_value self return_mats h Mr Mf :
  mixed_correlation (real_data self) (num_cols self) (cat_cols self)
    = Some Mr →
  mixed_correlation (synt_data self) (num_cols self) (cat_cols self)
    = Some Mf →
  (verbose self = true →
   plot_matrix_heatmap (mat_sub Mr Mf)
     "Mixed correlation matrix difference" "corr" = Some ()) →
  ∃ l self' h' (d : dict),
    evaluate plot_matrix_heatmap self true return_mats h
    = Some (l, self', h') ∧
    results self' = l ∧
    h' !! l = Some d ∧
    d !! "corr_mat_diff" = Some (PyFloat (norm_fro (mat_sub Mr Mf))).
Proof.
  intros Hr Hf Hplot. unfold evaluate. simpl.
  rewrite Hr, Hf. simpl.
  assert ((if verbose self
           then plot_matrix_heatmap (mat_sub Mr Mf)
                  "Mixed correlation matrix difference" "corr"
           else Some ()) = Some ()) as ->.
  { destruct (verbose self); [by apply Hplot|done]. }
  simpl. eexists _, _, _, _. split; [done|]. split; [done|].
  split; [apply lookup_insert_eq|].
  destruct return_mats.
  - rewrite !lookup_insert_ne by done. by rewrite lookup_singleton_eq.
  - by rewrite lookup_singleton_eq.
Qed.


(** C9, as amended: [EpsilonIdentifiability.evaluate] updates the
    results mapping of its instance in place and returns that same
    mapping, every other entry staying as it was;
    [MixedCorrelation.evaluate] binds [self.results] to a new mapping
    that holds nothing but the keys it stores, returns this new
    mapping, and leaves every mapping that existed before as it
    was. *)
Theorem results_mapping_after_evaluate
    (_knn_distance : DataFrame → DataFrame → list string → nat → string →
                     vector → option (list R * list nat)) :
  updates_results_in_place
    (EpsilonIdentifiability.evaluate _knn_distance) ["eps_risk"%string] ∧
  ∀ self mixed_corr return_mats h l self' h',
    evaluate plot_matrix_heatmap self mixed_corr return_mats h
    = Some (l, self', h') →
    (l ∉ dom h) ∧ results self' = l ∧
    (∀ l0, l0 ≠ l → h' !! l0 = h !! l0) ∧
    ∃ d : dict, h' !! l = Some d ∧ is_Some (d !! "corr_mat_diff") ∧
                ∀ k, is_Some (d !! k) → k ∈ stored_keys.
Proof.
  split; [apply eps_evaluate_in_place|].
  intros self mc rm h l self' h' H.
  apply mixed_evaluate_inv in H as (-> & -> & d & -> & Hd & Hkeys).
  split; [apply is_fresh|]. split; [done|].
  split; [intros l0 Hl0; by rewrite lookup_insert_ne|].
  exists d. by rewrite lookup_insert_eq.
Qed.

End MixedCorrelationMetricFacts.

(** * The sample inputs at work *)

Section Samples.

Lemma one_row_frame_well_formed : well_formed one_row_frame.
Proof. split; [simpl; lia|]. by repeat constructor. Qed.

Lemma one_row_frame_has_x : has_columns one_row_frame ["x"%string].
Proof. repeat constructor. by eexists. Qed.

Lemma one_row_frame_has_c : has_columns one_row_frame ["c"%string].
Proof. repeat constructor. by eexists. Qed.

Lemma one_row_x_constant : is_constant (column one_row_frame "x").
Proof.
  intros x y Hx Hy. change (column one_row_frame "x") with [5] in *.
  apply list_elem_of_singleton in Hx, Hy. by subst.
Qed.

Lemma one_row_matrix :
  ∃ M, mixed_correlation one_row_frame ["x"%string] ["c"%string] = Some M ∧
       M !! 1%nat ≫= (.!! 1%nat) = Some NaN.
Proof.
  apply (mixed_correlation_constant_column one_row_frame ["x"%string]
           ["c"%string] 0 "x" one_row_frame_well_formed
           one_row_frame_has_c one_row_frame_has_x eq_refl
           one_row_x_constant).
Qed.



(** The claim C9 fails for [MixedCorrelation.evaluate]: the mapping it
    returns is not the one the instance held. *)
Lemma mixed_evaluate_not_in_place :
  ¬ updates_results_in_place
      (λ self h, MixedCorrelation.evaluate plot_silent self true false h)
      stored_keys.
Proof.
  intros Hin.
  destruct one_row_matrix as (M & HM & _).
  destruct (mixed_evaluate_value plot_silent (one_row_metric "gower")
              false one_entry_heap M M)
    as (l & self' & h' & d & Hev & Hres & Hd & Hk); [done..|].
  destruct (Hin (one_row_metric "gower") one_entry_heap one_entry_results
              l self' h') as (Hl & _); [done|done|].
  apply mixed_evaluate_inv in Hev as (Hfresh & _).
  pose proof (is_fresh (dom one_entry_heap)) as Hnot.
  rewrite <- Hfresh, Hl in Hnot. apply Hnot.
  apply elem_of_dom. by eexists.
Qed.

Lemma sqrt_28_above_5 : 5 < sqrt 28.
Proof.
  rewrite <- (sqrt_square 5) at 1 by lra.
  apply sqrt_lt_1_alt. lra.
Qed.

Lemma pearson_of_monotone_sample :
  nancorr [0; 1; 2] [0; 1; 5] = Fin (5 / sqrt 28).
Proof.
  unfold nancorr. cbn [length]. rewrite decide_False by lia. cbv zeta.
  cbn [fmap list_fmap zip_with Rsum foldr INR].
  match goal with
  | |- context [sqrt (?a * ?b)] =>
      replace a with 2 by lra; replace b with 14 by lra
  end.
  match goal with
  | |- context [decide (1 < ?c / sqrt _)] => replace c with 5 by lra
  end.
  replace (2 * 14) with 28 by lra.
  pose proof sqrt_28_above_5 as Hs.
  assert (0 < 5 / sqrt 28 < 1) as Hq.
  { assert (0 < / sqrt 28) by (apply Rinv_0_lt_compat; lra).
    assert (sqrt 28 * / sqrt 28 = 1) by (apply Rinv_r; lra).
    unfold Rdiv. split; nra. }
  rewrite decide_True by lra.
  rewrite decide_False by lra. by rewrite decide_False by lra.
Qed.

Lemma ranks_of_increasing_sample a b c :
  a < b → b < c → rank [a; b; c] <$> [a; b; c] = [1; 2; 3].
Proof.
  intros Hab Hbc. unfold rank. cbn [fmap list_fmap].
  rewrite !filter_cons, !filter_nil.
  repeat (first [rewrite decide_True by lra|rewrite decide_False by lra]).
  cbn [length INR]. repeat f_equal; lra.
Qed.

Lemma spearman_of_monotone_sample :
  spearman_rho [0; 1; 2] [0; 1; 5] = Fin 1.
Proof.
  unfold spearman_rho.
  rewrite !ranks_of_increasing_sample by lra.
  apply nancorr_self_varying. intros Hc.
  assert (1 = 2); [|lra].
  apply Hc; [by left|right; by left].
Qed.

Lemma monotone_frame_well_formed : well_formed monotone_frame.
Proof. split; [simpl; lia|]. by repeat constructor. Qed.

Lemma monotone_frame_has_xy :
  has_columns monotone_frame ["x"%string; "y"%string].
Proof. repeat constructor; by eexists. Qed.

(** C1: the docstring of [mixed_correlation] and the specification name
    Spearman's rho for the numeric block, the code calls
    [DataFrame.corr()], whose default is the Pearson correlation.  On
    the sample frame the entry of the two numeric columns is the
    Pearson correlation [5 / sqrt 28]; Spearman's rho of these columns
    is 1. *)
Theorem numeric_block_is_pearson_not_spearman :
  ∃ M, mixed_correlation monotone_frame ["x"%string; "y"%string] []
       = Some M ∧
       M !! 0%nat ≫= (.!! 1%nat) = Some (Fin (5 / sqrt 28)) ∧
       spearman_rho (column monotone_frame "x") (column monotone_frame "y")
       = Fin 1 ∧
       5 / sqrt 28 ≠ 1.
Proof.
  destruct (mixed_correlation_numeric_block monotone_frame
              ["x"%string; "y"%string] [] monotone_frame_well_formed)
    as (M & HM & Hblock); [constructor|apply monotone_frame_has_xy|].
  exists M. split; [done|].
  specialize (Hblock 0%nat 1%nat "x"%string "y"%string eq_refl eq_refl).
  change (column monotone_frame "x") with [0; 1; 2] in *.
  change (column monotone_frame "y") with [0; 1; 5] in *.
  rewrite pearson_of_monotone_sample in Hblock.
  cbn [length Nat.add fadd flift2] in Hblock.
  split; [|split].
  - rewrite Hblock by done. do 2 f_equal. lra.
  - apply spearman_of_monotone_sample.
  - pose proof sqrt_28_above_5.
    assert (0 < / sqrt 28) by (apply Rinv_0_lt_compat; lra).
    assert (sqrt 28 * / sqrt 28 = 1) by (apply Rinv_r; lra).
    unfold Rdiv. nra.
Qed.

(** ** The theorems at the sample inputs *)

Lemma one_row_euclid_evaluate :
  EpsilonIdentifiability.evaluate (knn_const [1]) (one_row_metric "euclid")
    one_entry_heap
  = Some (0%nat,
          set_data (one_row_metric "euclid") one_row_numeric_frame
            one_row_numeric_frame,
          <[0%nat := <["eps_risk"%string :=
               PyFloat (Fin (INR (length (flagged 1 [1] [1])) / INR 1))]>
               one_entry_results]> one_entry_heap).
Proof.
  by apply (evaluate_returns (knn_const [1]) (one_row_metric "euclid")
              _ one_entry_heap one_entry_results [1] [1] [0%nat] [0%nat]).
Qed.

(** One real row at distance 1 from its nearest real and from its
    nearest synthetic neighbour: the tie is not counted. *)
Lemma eps_risk_of_a_tie :
  ∃ self' h',
    EpsilonIdentifiability.evaluate (knn_const [1])
      (one_row_metric "euclid") one_entry_heap
    = Some (0%nat, self', h') ∧
    (h' !! 0%nat) ≫= (.!! "eps_risk")
    = Some (PyFloat (Fin (INR (length (flagged 1 [1] [1])) / INR 1))) ∧
    0%nat ∉ flagged 1 [1] [1].
Proof.
  destruct (eps_risk_counts_strictly_closer_rows (knn_const [1])
              (one_row_metric "euclid")
              (set_data (one_row_metric "euclid") one_row_numeric_frame
                 one_row_numeric_frame)
              one_entry_heap one_entry_results [1] [1] [0%nat] [0%nat])
    as (self' & h' & Hev & Hval & _ & Htie);
    [reflexivity|reflexivity|reflexivity|reflexivity|reflexivity
    |discriminate|reflexivity|].
  exists self', h'. split; [exact Hev|]. split; [exact Hval|].
  apply (Htie 0%nat 1); reflexivity.
Defined.

Lemma eps_risk_of_one_row_in_unit_interval :
  ∃ self' h' risk,
    EpsilonIdentifiability.evaluate (knn_const [2])
      (one_row_metric "gower") one_entry_heap
    = Some (0%nat, self', h') ∧
    (h' !! 0%nat) ≫= (.!! "eps_risk") = Some (PyFloat (Fin risk)) ∧
    0 <= risk <= 1.
Proof.
  apply (eps_risk_in_unit_interval (knn_const [2]) (one_row_metric "gower")
           (one_row_metric "gower") one_entry_heap one_entry_results
           [2] [2] [0%nat] [0%nat]);
    [reflexivity|reflexivity|reflexivity|reflexivity|reflexivity
    |discriminate|reflexivity].
Defined.








Lemma one_row_mixed_evaluate :
  ∃ l self' h',
    MixedCorrelation.evaluate plot_silent (one_row_metric "gower") true
      false one_entry_heap = Some (l, self', h').
Proof.
  destruct one_row_matrix as (M & HM & _).
  destruct (mixed_evaluate_value plot_silent (one_row_metric "gower")
              false one_entry_heap M M)
    as (l & self' & h' & d & Hev & _); [done..|]. eauto.
Qed.

Lemma results_mappings_of_the_samples :
  updates_results_in_place
    (EpsilonIdentifiability.evaluate (knn_const [1])) ["eps_risk"%string] ∧
  ∃ l self' h',
    MixedCorrelation.evaluate plot_silent (one_row_metric "gower") true
      false one_entry_heap = Some (l, self', h') ∧
    l ≠ 0%nat ∧ h' !! 0%nat = Some one_entry_results.
Proof.
  destruct (results_mapping_after_evaluate plot_silent (knn_const [1]))
    as [Heps Hmixed].
  split; [exact Heps|].
  destruct one_row_mixed_evaluate as (l & self' & h' & Hev).
  destruct (Hmixed _ _ _ _ _ _ _ Hev) as (Hfresh & _ & Hframe & _).
  assert (l ≠ 0%nat) as Hl.
  { intros ->. apply Hfresh, elem_of_dom. by eexists. }
  exists l, self', h'. split; [exact Hev|]. split; [exact Hl|].
  rewrite Hframe by auto. reflexivity.
Defined.

End Samples.

(** * Further lemmas on lists and frames *)

Section DataFrameFacts.

Lemma df_select_has_columns data labs data' :
  df_select data labs = Some data' → has_columns data labs.
Proof.
  unfold df_select. intros H.
  destruct (mapM _ labs) as [cols|] eqn:E; [|done].
  assert (is_Some (mapM (λ lab, (λ v, (lab, v)) <$> df_getitem data lab) labs))
    as Hs by (by rewrite E).
  apply mapM_is_Some in Hs.
  eapply Forall_impl; [exact Hs|].
  intros lab Hl. unfold compose in Hl. by apply fmap_is_Some in Hl.
Qed.

Lemma col_lookup_fmap_pair (g : string → list R) (labs : list string) lab :
  lab ∈ labs → col_lookup ((λ l, (l, g l)) <$> labs) lab = Some (g lab).
Proof.
  induction labs as [|l labs IH]; [by intros ?%elem_of_nil|].
  intros Hl. rewrite fmap_cons. simpl.
  destruct (decide (l = lab)) as [->|Hne]; [done|].
  apply IH. apply elem_of_cons in Hl as [->|Hl]; done.
Qed.

(** Selecting the same labels a second time changes nothing. *)
Lemma df_select_idempotent data labs data' :
  df_select data labs = Some data' → df_select data' labs = Some data'.
Proof.
  intros H. pose proof (df_select_has_columns _ _ _ H) as Hc.
  rewrite df_select_columns in H by done. injection H as <-.
  unfold df_select.
  rewrite (mapM_total _ (λ lab, (lab, column data lab))); [done|].
  apply Forall_forall. intros lab Hlab.
  unfold df_getitem. simpl.
  by rewrite (col_lookup_fmap_pair (column data)).
Qed.


Lemma filter_all {A} (P : A → Prop) `{∀ x, Decision (P x)} (l : list A) :
  Forall P l → filter P l = l.
Proof.
  induction 1 as [|x l Hx _ IH]; [done|].
  by rewrite filter_cons_True, IH.
Qed.


Lemma fmap_seq_lookup {A B} (f : A → B) (d : A) (l : list A) :
  (λ i, f (default d (l !! i))) <$> seq 0 (length l) = f <$> l.
Proof.
  apply list_eq. intros i. rewrite !list_lookup_fmap.
  destruct (l !! i) as [x|] eqn:E.
  - rewrite (lookup_seq_lt 0 (length l) i) by (by eapply lookup_lt_Some).
    simpl. by rewrite E.
  - rewrite lookup_seq_ge; [done|]. by apply lookup_ge_None.
Qed.

End DataFrameFacts.

(** * The entropy weights *)

Section EntropyWeightFacts.

Import EpsilonIdentifiability.

Lemma entropy_weights_columns (data : DataFrame) :
  entropy_weights data =
  (λ c, fdiv (Fin 1) (fadd (_column_entropy c.2) (Fin eps16)))
    <$> columns data.
Proof.
  unfold entropy_weights, np_asarray, np_column. simpl.
  rewrite <- list_fmap_compose.
  rewrite <- (length_fmap snd (columns data)).
  etrans; [|etrans; [apply (fmap_seq_lookup
             (λ c, fdiv (Fin 1) (fadd (_column_entropy c) (Fin eps16))) []
             (snd <$> columns data))|]].
  - done.
  - by rewrite <- list_fmap_compose.
Qed.

Lemma shannon_entropy_nonneg (a : list Z) :
  0 <= shannon_entropy (frequencies a).
Proof.
  unfold shannon_entropy. apply Rsum_nonneg, Forall_fmap, Forall_forall.
  intros p Hp. simpl. apply frequencies_range in Hp.
  apply entropy_term_nonneg; lra.
Qed.

Lemma shannon_entropy_one_value (a : list Z) :
  a ≠ [] → (∀ x y, x ∈ a → y ∈ a → x = y) →
  shannon_entropy (frequencies a) = 0.
Proof.
  intros Ha Hsame. unfold shannon_entropy.
  assert (0 < INR (length a)) as Hn.
  { apply lt_0_INR. destruct a; [done|simpl; lia]. }
  assert (Forall (λ x, x = 0) ((λ p, - (p * ln p)) <$> frequencies a)) as Hz.
  { apply Forall_fmap, Forall_forall.
    intros p (v & Hv & ->)%frequencies_spec. simpl.
    rewrite count_Forall by (apply Forall_forall; intros; by apply Hsame).
    unfold Rdiv. rewrite Rinv_r by lra. rewrite ln_1. lra. }
  clear -Hz. induction Hz as [|x xs -> _ IH]; [done|].
  rewrite Rsum_cons, IH. lra.
Qed.

Lemma inverse_entropy_range (H : R) :
  0 <= H →
  fdiv (Fin 1) (fadd (Fin H) (Fin eps16)) = Fin (1 / (H + eps16)) ∧
  0 < 1 / (H + eps16) <= 10 ^ 16.
Proof.
  intros HH. pose proof eps16_pos as He.
  assert (0 < 10 ^ 16) as Hp by (apply pow_lt; lra).
  split.
  - simpl. destruct (decide (H + eps16 = 0)); [lra|done].
  - split; [apply Rdiv_lt_0_compat; lra|].
    unfold Rdiv. rewrite Rmult_1_l.
    rewrite <- (Rinv_inv (10 ^ 16)). fold eps16.
    apply Rinv_le_contravar; lra.
Qed.

(** X1: [evaluate] computes one weight [1/(entropy + 1e-16)] per column
    of the real data.  When no column is empty every weight is a number,
    strictly positive and at most [1e16]; the weight of a column whose
    rounded values are all equal (entropy zero) is exactly [1e16], so
    the guard [1e-16] keeps the division defined. *)
Theorem entropy_weights_positive (data : DataFrame) :
  Forall (λ c, c.2 ≠ []) (columns data) →
  length (entropy_weights data) = length (columns data) ∧
  Forall (λ w, ∃ x, w = Fin x ∧ 0 < x <= 10 ^ 16) (entropy_weights data) ∧
  ∀ i c, columns data !! i = Some c →
         (∀ x y, x ∈ c.2 → y ∈ c.2 → np_round x = np_round y) →
         entropy_weights data !! i = Some (Fin (10 ^ 16)).
Proof.
  intros Hne. rewrite entropy_weights_columns.
  split; [by rewrite length_fmap|]. split.
  - apply Forall_fmap. eapply Forall_impl; [exact Hne|].
    intros c Hc. unfold compose. rewrite column_entropy_shannon by done.
    destruct (inverse_entropy_range
                (shannon_entropy (frequencies (np_round <$> c.2))))
      as [-> ?]; [apply shannon_entropy_nonneg|]. eauto.
  - intros i c Hi Hsame. rewrite list_lookup_fmap, Hi. simpl.
    assert (c.2 ≠ []) as Hc.
    { rewrite Forall_forall in Hne. eapply Hne, list_elem_of_lookup_2, Hi. }
    rewrite column_entropy_shannon by done.
    rewrite shannon_entropy_one_value.
    + simpl. pose proof eps16_pos.
      destruct (decide (0 + eps16 = 0)); [lra|].
      do 2 f_equal. unfold eps16. rewrite Rplus_0_l.
      unfold Rdiv. by rewrite Rmult_1_l, Rinv_inv.
    + by destruct (c.2).
    + intros x y (x' & -> & Hx)%list_elem_of_fmap
                 (y' & -> & Hy)%list_elem_of_fmap.
      by apply Hsame.
Qed.

End EntropyWeightFacts.

(** * Bounds of the column entropy *)

Section ColumnEntropyBounds.






End ColumnEntropyBounds.

(** * The methods of the epsilon-identifiability metric *)

Section EpsilonIdentifiabilityMethods.

Import EpsilonIdentifiability.

Variable _knn_distance :
  DataFrame → DataFrame → list string → nat → string → vector →
  option (list R * list nat).

Variable format_4f : float → string.

Lemma numeric_only_idempotent self self1 :
  numeric_only self = Some self1 → numeric_only self1 = Some self1.
Proof.
  unfold numeric_only. intros H.
  destruct (decide (nn_dist self = "euclid")) as [He|He].
  - destruct (df_select (real_data self) _) as [r|] eqn:Er; [|done].
    destruct (df_select (synt_data self) _) as [s|] eqn:Es; [|done].
    simpl in H. injection H as <-. simpl.
    rewrite decide_True by done.
    rewrite (df_select_idempotent _ _ _ Er), (df_select_idempotent _ _ _ Es).
    done.
  - injection H as <-. by rewrite decide_False.
Qed.

(** What a returning [evaluate] has stored: a count over the number of
    rows of the real data. *)
Lemma evaluate_stored_value self h l self' h' :
  evaluate _knn_distance self h = Some (l, self', h') →
  ∃ d (c : nat),
    h !! results self = Some d ∧
    h' = <[results self := <["eps_risk" :=
            PyFloat (fdiv (Fin (INR c))
                          (Fin (INR (index_size (real_data self)))))]> d]> h.
Proof.
  unfold evaluate. intros H.
  destruct (numeric_only self) as [self1|] eqn:E1; [|done].
  pose proof (numeric_only_results _ _ E1) as Hres.
  pose proof (numeric_only_index_size _ _ E1) as Hno.
  simpl in H. rewrite Hres, Hno in H.
  destruct (_knn_distance _ (real_data self1) _ _ _ _) as [[ins ?]|]; [|done].
  simpl in H.
  destruct (_knn_distance _ _ _ _ _ _) as [[ext ?]|]; [|done].
  simpl in H.
  destruct (np_zip _ _ _) as [diff|]; [|done].
  simpl in H.
  destruct (h !! results self) as [d|] eqn:Ed; [|done].
  simpl in H. injection H as <- <- <-.
  eauto.
Qed.

(** X3: after [evaluate] has returned, [normalize_output] returns
    [{'val': [exp(-5 * eps_risk)], 'err': [0]}] without raising; the
    value is a number in (0, 1] when the real data have a row, and NaN
    (from the division 0/0 in [evaluate]) when they have none. *)
Theorem eps_normalize_output_after_evaluate self h l self' h' :
  evaluate _knn_distance self h = Some (l, self', h') →
  ∃ w, normalize_output self' h' = Some (mkNormalized [w] [0%Z]) ∧
       if decide (index_size (real_data self) = 0%nat) then w = NaN
       else ∃ x, w = Fin x ∧ 0 < x <= 1.
Proof.
  intros H.
  pose proof (evaluate_inv _ _ _ _ _ _ H) as (H1 & _ & _).
  apply evaluate_stored_value in H as (d & c & Hd & ->).
  unfold normalize_output.
  rewrite (numeric_only_results _ _ H1), lookup_insert_eq. simpl.
  rewrite lookup_insert_eq. simpl.
  eexists. split; [done|].
  destruct (decide (index_size (real_data self) = 0%nat)) as [->|Hno].
  - simpl. by rewrite decide_True.
  - assert (0 < INR (index_size (real_data self))) as Hpos.
    { apply lt_0_INR. lia. }
    simpl. rewrite decide_False by lra. simpl.
    eexists. split; [done|]. split; [apply exp_pos|].
    assert (0 <= INR c / INR (index_size (real_data self))) as Hq.
    { apply Rmult_le_pos; [apply pos_INR|].
      left. by apply Rinv_0_lt_compat. }
    rewrite <- exp_0.
    destruct (Req_dec (-5 * (INR c / INR (index_size (real_data self)))) 0)
      as [->|Hne]; [lra|].
    left. apply exp_increasing. lra.
Qed.

(** X4: [evaluate] can be run again: on the instance and the results it
    has left behind, a second call returns the same mapping with the
    same score and leaves the instance as it is (under ['euclid'] the
    data attributes, already restricted to the numeric columns, are
    restricted to them once more). *)
Theorem eps_evaluate_idempotent self h l self' h' :
  evaluate _knn_distance self h = Some (l, self', h') →
  evaluate _knn_distance self' h' = Some (l, self', h').
Proof.
  unfold evaluate. intros H.
  destruct (numeric_only self) as [self1|] eqn:E1; [|done].
  pose proof (numeric_only_results _ _ E1) as Hres.
  simpl in H.
  destruct (_knn_distance _ (real_data self1) _ _ _ _) as [[ins ?]|] eqn:Ei;
    [|done].
  simpl in H.
  destruct (_knn_distance _ (synt_data self1) _ _ _ _) as [[ext ?]|] eqn:Ee;
    [|done].
  simpl in H.
  destruct (np_zip _ _ _) as [diff|] eqn:Ez; [|done].
  simpl in H.
  destruct (h !! results self1) as [d|] eqn:Ed; [|done].
  simpl in H. injection H as <- <- <-.
  rewrite (numeric_only_idempotent _ _ E1). simpl.
  rewrite Ei, Ee. simpl. rewrite Ez. simpl.
  rewrite lookup_insert_eq. simpl.
  by rewrite !insert_insert_eq.
Qed.

(** X5: under the keyword ['euclid'], [evaluate] raises (the [KeyError]
    of the column selection) when the real or the synthetic data lack
    one of the numeric columns. *)
Theorem eps_evaluate_missing_numeric_column self h :
  nn_dist self = "euclid" →
  ¬ (has_columns (real_data self) (num_cols self) ∧
     has_columns (synt_data self) (num_cols self)) →
  evaluate _knn_distance self h = None.
Proof.
  intros He Hmiss. unfold evaluate, numeric_only.
  rewrite decide_True by done.
  destruct (df_select (real_data self) _) as [r|] eqn:Er; [|done].
  destruct (df_select (synt_data self) _) as [s|] eqn:Es; [|done].
  destruct Hmiss. split; by eapply df_select_has_columns.
Qed.

(** X6: while the results mapping holds no ['eps_risk'],
    [format_output] and [normalize_output] raise ([KeyError]); once
    [evaluate] has returned, [format_output] returns the report line
    that carries the stored score rendered with ['%.4f']. *)
Theorem eps_format_output_after_evaluate self h d l self' h' :
  h !! results self = Some d →
  d !! "eps_risk" = None →
  evaluate _knn_distance self h = Some (l, self', h') →
  format_output format_4f self h = None ∧
  normalize_output self h = None ∧
  ∃ risk,
    (h' !! l) ≫= (.!! "eps_risk") = Some (PyFloat risk) ∧
    format_output format_4f self' h'
    = Some ("| Epsilon identifiability risk             :   "
            +:+ format_4f risk +:+ "           |").
Proof.
  intros Hd Hk H.
  split; [unfold format_output; by rewrite Hd; simpl; rewrite Hk|].
  split; [unfold normalize_output; by rewrite Hd; simpl; rewrite Hk|].
  apply evaluate_inv in H as (H1 & -> & d0 & v & Hd0 & ->).
  exists v. unfold format_output.
  rewrite (numeric_only_results _ _ H1), lookup_insert_eq. simpl.
  by rewrite lookup_insert_eq.
Qed.

End EpsilonIdentifiabilityMethods.

(** * Cramér's V: sign and degenerate tables *)

Section CramersVBounds.

Lemma cramers_V_swap (a b : list R) : _cramers_V a b = _cramers_V b a.
Proof.
  unfold _cramers_V.
  rewrite (pd_crosstab_swap a b), (pd_crosstab_table a b).
  rewrite <- chi2_contingency_swap, <- nat_sum_table.
  destruct (decide (sorted_unique (zip a b).*1 = [])) as [E1|N1].
  - pose proof E1 as E2. apply crosstab_labels_nil in E2.
    by rewrite E1, E2.
  - assert (sorted_unique (zip a b).*2 ≠ []) as N2
      by (by rewrite <- crosstab_labels_nil).
    rewrite !table_shape_table_of by done. cbn [fst snd].
    by rewrite (Nat.min_comm (length (sorted_unique (zip a b).*2))).
Qed.

(** The cross-tabulation of non-empty aligned columns has no empty row
    and no empty column. *)
Lemma crosstab_margins (a b : list R) :
  a ≠ [] → length a = length b →
  let pairs := zip a b in
  let N := λ r c, length (filter (λ p, p = (r, c)) pairs) in
  let rows := sorted_unique pairs.*1 in
  let cols := sorted_unique pairs.*2 in
  rows ≠ [] ∧ cols ≠ [] ∧
  (∀ r, r ∈ rows → 0 < nat_sum (N r <$> cols))%nat ∧
  (∀ c, c ∈ cols → 0 < nat_sum ((λ r, N r c) <$> rows))%nat.
Proof.
  intros Hne E pairs N rows cols.
  assert (pairs ≠ []) as Hp.
  { subst pairs. destruct a, b; simplify_eq/=; done. }
  assert (HN : ∀ r c, (r, c) ∈ pairs → (0 < N r c)%nat).
  { intros r c Hin. subst N. simpl.
    destruct (filter _ pairs) as [|q l] eqn:Hf; [|simpl; lia].
    assert ((r, c) ∈ filter (λ p, p = (r, c)) pairs) as Hin'
      by (by apply list_elem_of_filter).
    rewrite Hf in Hin'. by apply elem_of_nil in Hin'. }
  split; [|split; [|split]].
  - subst rows. rewrite sorted_unique_nil. by intros ?%fmap_nil_inv.
  - subst cols. rewrite sorted_unique_nil. by intros ?%fmap_nil_inv.
  - intros r Hin. apply elem_of_sorted_unique, list_elem_of_fmap in Hin
      as ([r' c] & -> & Hin).
    assert (c ∈ cols) as Hc'.
    { apply elem_of_sorted_unique, list_elem_of_fmap. by exists (r', c). }
    pose proof (HN _ _ Hin) as Hpos.
    assert (N r' c ∈ N r' <$> cols) as Hel
      by (apply list_elem_of_fmap; eauto).
    apply nat_sum_elem in Hel. simpl in *. lia.
  - intros c Hin. apply elem_of_sorted_unique, list_elem_of_fmap in Hin
      as ([r c'] & -> & Hin).
    assert (r ∈ rows) as Hr'.
    { apply elem_of_sorted_unique, list_elem_of_fmap. by exists (r, c'). }
    pose proof (HN _ _ Hin) as Hpos.
    assert (N r c' ∈ (λ r, N r c') <$> rows) as Hel
      by (apply list_elem_of_fmap; eauto).
    apply nat_sum_elem in Hel. simpl in *. lia.
Qed.

(** A table with a single row has no degree of freedom: the statistic
    is [0.0]. *)
Lemma chi2_contingency_one_row {A B} (N : A → B → nat) rows cols :
  length rows = 1%nat → cols ≠ [] →
  (∀ r, r ∈ rows → 0 < nat_sum (N r <$> cols))%nat →
  (∀ c, c ∈ cols → 0 < nat_sum ((λ r, N r c) <$> rows))%nat →
  chi2_contingency (table_of N rows cols) = Some (Fin 0).
Proof.
  intros Hr Hc Hrs Hcs.
  assert (rows ≠ []) as Hne by (by destruct rows).
  destruct (chi2_contingency_finite N rows cols Hne Hc Hrs Hcs)
    as (stat & Hs & _).
  unfold chi2_contingency in Hs |- *.
  rewrite table_shape_table_of in Hs |- * by done.
  destruct (decide (_ * _ = 0)%nat); [done|].
  destruct (decide (Exists _ _)); [done|].
  cbv zeta. rewrite decide_True; [done|]. rewrite Hr. lia.
Qed.

Lemma sorted_unique_constant (l : list R) :
  l ≠ [] → is_constant l → length (sorted_unique l) = 1%nat.
Proof.
  intros Hne Hc. unfold sorted_unique. rewrite merge_sort_Permutation.
  pose proof (NoDup_remove_dups l) as Hnd.
  assert (∀ x, x ∈ remove_dups l → x ∈ l) as Hin
    by (intros x; by rewrite elem_of_remove_dups).
  destruct (remove_dups l) as [|y [|z t]] eqn:E; [|done|].
  - destruct l as [|x l']; [done|].
    assert (x ∈ remove_dups (x :: l')) as Hx
      by (rewrite elem_of_remove_dups; by left).
    rewrite E in Hx. by apply elem_of_nil in Hx.
  - assert (y = z) as ->.
    { apply Hc; apply Hin; [by left|right; by left]. }
    apply NoDup_cons in Hnd as [Hnd _]. destruct Hnd. by left.
Qed.

(** X7: when one of two non-empty aligned columns takes a single value,
    [_cramers_V] returns exactly [0.0]: the contingency table has one
    row (or one column), [chi2_contingency] gives the statistic 0 for
    its zero degrees of freedom, and the divisor is the guard [1e-16]
    alone. *)
Theorem cramers_V_constant_column (a b : list R) :
  a ≠ [] → length a = length b →
  is_constant a ∨ is_constant b →
  _cramers_V a b = Some (Fin 0).
Proof.
  assert (∀ a b, a ≠ [] → length a = length b → is_constant a →
                 _cramers_V a b = Some (Fin 0)) as Hleft.
  { clear a b. intros a b Hne E Hc.
    destruct (crosstab_margins a b Hne E) as (Hr & Hcn & Hrs & Hcs).
    unfold _cramers_V. rewrite pd_crosstab_table.
    assert (length (sorted_unique (zip a b).*1) = 1%nat) as Hone.
    { rewrite fst_zip by lia. by apply sorted_unique_constant. }
    rewrite chi2_contingency_one_row by done.
    cbn [mbind option_bind].
    rewrite table_shape_table_of by done. cbn [fst snd].
    rewrite Hone.
    assert (1 `min` length (sorted_unique (zip a b).*2) = 1)%nat as ->.
    { destruct (sorted_unique (zip a b).*2); [done|simpl; lia]. }
    simpl. rewrite Z.mul_0_r. pose proof eps16_pos.
    rewrite decide_False by lra.
    do 2 f_equal. unfold Rdiv. apply Rmult_0_l. }
  intros Hne E [Hc|Hc]; [by apply Hleft|].
  rewrite cramers_V_swap. apply Hleft; [|done|done].
  destruct a, b; simplify_eq/=; done.
Qed.

Lemma np_sum_nonneg (v : vector) :
  Forall (λ x, ∃ t, x = Fin t ∧ 0 <= t) v →
  ∃ s, np_sum v = Fin s ∧ 0 <= s.
Proof.
  induction 1 as [|x v (t & -> & Ht) _ (s & IH & Hs)].
  - exists 0. split; [done|lra].
  - rewrite np_sum_cons, IH. exists (t + s). split; [done|lra].
Qed.

Lemma chi2_term_nonneg (o : float) (e : R) :
  is_finite o → 0 < e →
  ∃ t, fdiv (fmul (fsub o (Fin e)) (fsub o (Fin e))) (Fin e) = Fin t ∧ 0 <= t.
Proof.
  intros Ho He. destruct o as [x|]; [|done].
  simpl. rewrite decide_False by lra.
  eexists. split; [done|].
  apply Rmult_le_pos; [apply square_nonneg|].
  left. by apply Rinv_0_lt_compat.
Qed.

(** The statistic of a table without empty row or column is a
    non-negative number. *)
Lemma chi2_contingency_nonneg {A B} (N : A → B → nat) rows cols :
  rows ≠ [] → cols ≠ [] →
  (∀ r, r ∈ rows → 0 < nat_sum (N r <$> cols))%nat →
  (∀ c, c ∈ cols → 0 < nat_sum ((λ r, N r c) <$> rows))%nat →
  ∃ s, chi2_contingency (table_of N rows cols) = Some (Fin s) ∧ 0 <= s.
Proof.
  intros Hr Hc Hrs Hcs.
  destruct (chi2_contingency_finite N rows cols Hr Hc Hrs Hcs)
    as (stat & Hs & _).
  assert (Htot : (0 < nat_sum ((λ r, nat_sum (N r <$> cols)) <$> rows))%nat).
  { destruct rows as [|r rows]; [done|].
    rewrite fmap_cons, nat_sum_cons.
    specialize (Hrs r (list_elem_of_here _ _)). lia. }
  assert (HE : ∀ r c, r ∈ rows → c ∈ cols →
               ∃ e, expected_cell N rows cols r c = Fin e ∧ 0 < e).
  { intros r c Hr' Hc'. unfold expected_cell, fdiv.
    apply lt_INR in Htot. simpl in Htot.
    rewrite decide_False by lra.
    eexists. split; [done|].
    specialize (Hrs r Hr'). specialize (Hcs c Hc').
    apply lt_INR in Hrs, Hcs. simpl in Hrs, Hcs.
    apply Rdiv_lt_0_compat; [|lra]. by apply Rmult_lt_0_compat. }
  unfold chi2_contingency in Hs |- *.
  rewrite table_shape_table_of, expected_freq_table_of in Hs |- * by done.
  destruct (decide (_ * _ = 0)%nat); [done|].
  destruct (decide (Exists _ _)); [done|].
  cbv zeta. clear Hs.
  destruct (decide (_ = 0%Z)); [exists 0; split; [done|lra]|].
  rewrite fmap_table_of.
  destruct (decide (_ = 1%Z)); rewrite !zip_with_table_of;
    match goal with
    | |- context [np_sum (concat (table_of ?f rows cols))] =>
        destruct (np_sum_nonneg (concat (table_of f rows cols)))
          as (s & -> & Hpos)
    end; eauto;
    apply Forall_concat_table_of; intros r c Hr' Hc';
    destruct (HE r c Hr' Hc') as (ex & -> & Hex);
    apply chi2_term_nonneg; try done.
Qed.

(** X8: on non-empty aligned columns [_cramers_V] returns without
    raising, and what it returns is a number that is not negative. *)
Theorem cramers_V_nonneg (a b : list R) :
  a ≠ [] → length a = length b →
  ∃ v, _cramers_V a b = Some (Fin v) ∧ 0 <= v.
Proof.
  intros Hne E.
  destruct (crosstab_margins a b Hne E) as (Hr & Hc & Hrs & Hcs).
  unfold _cramers_V. rewrite pd_crosstab_table.
  destruct (chi2_contingency_nonneg _ _ _ Hr Hc Hrs Hcs) as (s & -> & Hs).
  cbn [mbind option_bind].
  rewrite table_shape_table_of by done. cbn [fst snd].
  pose proof eps16_pos.
  match goal with
  | |- context [IZR ?z] => assert (0 <= IZR z) as Hz
  end.
  { apply IZR_le. apply Z.mul_nonneg_nonneg; [lia|].
    destruct (sorted_unique (zip a b).*1), (sorted_unique (zip a b).*2);
      simpl in *; try done; lia. }
  unfold fdiv. rewrite decide_False by lra.
  eexists. split; [done|].
  apply Rmult_le_pos; [done|]. left. apply Rinv_0_lt_compat. lra.
Qed.

End CramersVBounds.

(** * Values of the correlation ratio *)

Section CorrelationRatioValues.

(** The value of [_correlation_ratio] on non-empty aligned columns. *)
Lemma correlation_ratio_value (categories measurements : list R) :
  categories ≠ [] → length categories = length measurements →
  let B := between_groups_ss (groups_of categories measurements)
             (mean measurements) in
  let T := total_ss measurements (mean measurements) in
  _correlation_ratio categories measurements
  = Some (Fin (if decide (B = 0) then 0 else B / T)) ∧ 0 <= B <= T.
Proof.
  intros Hne E B T.
  pose proof (between_le_total_ss _ _ Hne E) as HB. fold B T in HB.
  split; [|done].
  unfold _correlation_ratio.
  rewrite correlation_ratio_terms_value by done. fold B T.
  cbn [mbind option_bind]. unfold feqb.
  destruct (decide (B = 0)) as [->|HB0].
  - by rewrite bool_decide_eq_true_2.
  - rewrite bool_decide_eq_false_2 by done.
    unfold fdiv. rewrite decide_False by lra. done.
Qed.



Lemma factorize_constant (categories : list R) :
  is_constant categories →
  (pd_factorize categories).1 = (λ _, 0%nat) <$> categories.
Proof.
  intros Hc. unfold pd_factorize. simpl.
  apply list_fmap_ext. intros i x Hx.
  destruct categories as [|x0 xs]; [done|].
  assert (x = x0) as ->.
  { apply Hc; [by eapply list_elem_of_lookup_2|by left]. }
  simpl. by rewrite decide_True.
Qed.

(** X9: when all categories are equal, [_correlation_ratio] of
    non-empty aligned columns returns exactly [0.0]: the only group mean
    is the total mean, the numerator vanishes and the guard
    [numerator == 0] applies whatever the denominator is. *)
Theorem correlation_ratio_one_category (categories measurements : list R) :
  categories ≠ [] → length categories = length measurements →
  is_constant categories →
  _correlation_ratio categories measurements = Some (Fin 0).
Proof.
  intros Hne E Hc.
  destruct (correlation_ratio_value _ _ Hne E) as [-> _].
  rewrite decide_True; [done|].
  unfold groups_of. rewrite factorize_constant by done.
  assert (max_list ((λ _, 0%nat) <$> categories) = 0%nat) as ->.
  { clear. induction categories as [|x xs IH]; [done|].
    rewrite fmap_cons. simpl. by rewrite IH. }
  simpl.
  assert (group ((λ _, 0%nat) <$> categories) measurements 0 = measurements)
    as ->.
  { unfold group. rewrite filter_all.
    - apply snd_zip. rewrite length_fmap. lia.
    - apply Forall_forall.
      intros [c y] Hin. apply list_elem_of_lookup in Hin as [i Hi].
      apply lookup_zip_with_Some in Hi as (c' & y' & Heq & Hc' & _).
      simplify_eq. rewrite list_lookup_fmap in Hc'.
      destruct (categories !! i); by simplify_eq/=. }
  unfold between_groups_ss. rewrite fmap_cons, Rsum_cons. simpl.
  unfold Rsum. simpl. lra.
Qed.


End CorrelationRatioValues.

(** * The matrix builder *)

Section ApplyMatFacts.

(** The entries of a matrix [_apply_mat] has returned. *)
Lemma apply_mat_lookup data func labs1 labs2 M i j a b :
  _apply_mat data func labs1 labs2 = Some M →
  labs1 !! i = Some a → labs2 !! j = Some b →
  ∃ va vb x, df_getitem data a = Some va ∧ df_getitem data b = Some vb ∧
             func va vb = Some x ∧ M !! i ≫= (.!! j) = Some x.
Proof.
  unfold _apply_mat. intros H Ha Hb. apply mapM_Some in H.
  destruct (Forall2_lookup_l _ _ _ _ _ H Ha) as (row & Hi & Hrow).
  apply mapM_Some in Hrow.
  destruct (Forall2_lookup_l _ _ _ _ _ Hrow Hb) as (x & Hj & Hx).
  destruct (df_getitem data a) as [va|]; [|done].
  destruct (df_getitem data b) as [vb|]; [|done].
  simpl in Hx. exists va, vb, x. rewrite Hi. simpl. by rewrite Hj.
Qed.

Lemma apply_mat_has_columns data func labs :
  is_Some (_apply_mat data func labs labs) → has_columns data labs.
Proof.
  intros [M HM].
  apply Forall_forall. intros lab Hlab.
  apply list_elem_of_lookup in Hlab as [i Hi].
  destruct (apply_mat_lookup _ _ _ _ _ _ _ _ _ HM Hi Hi)
    as (va & _ & _ & -> & _).
  by eexists.
Qed.

(** X11: a matrix returned by [_apply_mat] has one row per label of
    [labs1], each with one entry per label of [labs2], in the order of
    the two lists; the entry at [(i, j)] is what [func] returned for the
    columns [data[labs1[i]]] and [data[labs2[j]]], which exist. *)
Theorem apply_mat_entries data func labs1 labs2 M :
  _apply_mat data func labs1 labs2 = Some M →
  length M = length labs1 ∧
  Forall (λ row, length row = length labs2) M ∧
  ∀ i j a b, labs1 !! i = Some a → labs2 !! j = Some b →
    ∃ va vb x, df_getitem data a = Some va ∧ df_getitem data b = Some vb ∧
               func va vb = Some x ∧ M !! i ≫= (.!! j) = Some x.
Proof.
  intros H. pose proof H as H0.
  unfold _apply_mat in H. apply mapM_Some in H.
  split; [symmetry; by eapply Forall2_length|]. split.
  - apply Forall_forall. intros row Hrow.
    apply list_elem_of_lookup in Hrow as [i Hi].
    destruct (Forall2_lookup_r _ _ _ _ _ H Hi) as (a & _ & Hrow).
    apply mapM_Some in Hrow. symmetry. by eapply Forall2_length.
  - intros i j a b Ha Hb. by eapply apply_mat_lookup.
Qed.

(** X12: with both label lists non-empty, [_apply_mat] raises (the
    [KeyError] of [data[lab]]) as soon as one label of either list is
    not a column of the data.  No column is looked up when one list is
    empty: the result is then the matrix without entries. *)
Theorem apply_mat_missing_label data func labs1 labs2 lab :
  labs1 ≠ [] → labs2 ≠ [] →
  lab ∈ labs1 ++ labs2 → df_getitem data lab = None →
  _apply_mat data func labs1 labs2 = None ∧
  _apply_mat data func labs1 [] = Some (replicate (length labs1) []) ∧
  _apply_mat data func [] labs2 = Some [].
Proof.
  intros H1 H2 Hin Hnone. split; [|split; [|done]].
  - destruct (_apply_mat data func labs1 labs2) as [M|] eqn:E; [|done].
    destruct labs1 as [|a1 l1]; [done|]. destruct labs2 as [|b1 l2]; [done|].
    apply elem_of_app in Hin as [Hin|Hin];
      apply list_elem_of_lookup in Hin as [i Hi].
    + destruct (apply_mat_lookup _ _ _ _ _ i 0%nat lab b1 E Hi eq_refl)
        as (? & ? & ? & ? & _).
      congruence.
    + destruct (apply_mat_lookup _ _ _ _ _ 0%nat i a1 lab E eq_refl Hi)
        as (? & ? & ? & _ & ? & _).
      congruence.
  - unfold _apply_mat.
    rewrite (mapM_total _ (λ _, [])) by (by apply Forall_forall).
    f_equal. clear. induction labs1 as [|a l IH]; [done|].
    rewrite fmap_cons. simpl. by rewrite IH.
Qed.

End ApplyMatFacts.

(** * Shape and symmetry of the mixed correlation matrix *)

Section MixedCorrelationShape.





(** X14: on a well-formed frame [mixed_correlation] returns exactly when
    every numeric and every categorical label names a column of the
    data; a missing column makes it raise. *)
Theorem mixed_correlation_returns_iff data num_cols cat_cols :
  well_formed data →
  is_Some (mixed_correlation data num_cols cat_cols)
  ↔ has_columns data num_cols ∧ has_columns data cat_cols.
Proof.
  intros Hwf. split.
  - unfold mixed_correlation. intros [M HM].
    destruct (df_select data num_cols) as [d|] eqn:Ed; [|done].
    cbn [fmap option_fmap option_map mbind option_bind] in HM.
    destruct (_apply_mat data _cramers_V cat_cols cat_cols) as [cc|] eqn:Ec;
      [|done].
    split; [by eapply df_select_has_columns|].
    apply (apply_mat_has_columns _ _cramers_V). by rewrite Ec.
  - intros [Hnum Hcat]. by rewrite mixed_correlation_value.
Qed.

(** X15: on a frame without rows [mixed_correlation] raises as soon as
    there is a categorical label: Cramér's V of the first categorical
    column with itself meets an empty contingency table, which
    [chi2_contingency] rejects. *)
Theorem mixed_correlation_no_rows data num_cols cat_cols :
  index_size data = 0%nat →
  Forall (λ c, length c.2 = index_size data) (columns data) →
  cat_cols ≠ [] →
  mixed_correlation data num_cols cat_cols = None.
Proof.
  intros Hno Hcols Hcat. unfold mixed_correlation.
  destruct (df_select data num_cols) as [d|]; [|done].
  cbn [fmap option_fmap option_map mbind option_bind].
  destruct (_apply_mat data _cramers_V cat_cols cat_cols) as [cc|] eqn:Ec;
    [|done].
  exfalso.
  destruct cat_cols as [|a l]; [done|].
  destruct (apply_mat_lookup _ _ _ _ _ 0%nat 0%nat a a Ec eq_refl eq_refl)
    as (va & vb & x & Ha & Hb & Hx & _).
  rewrite Ha in Hb. injection Hb as <-.
  apply col_lookup_elem in Ha. rewrite Forall_forall in Hcols.
  apply Hcols in Ha. simpl in Ha. rewrite Hno in Ha.
  destruct va; [|done]. done.
Qed.



End MixedCorrelationShape.

(** * The methods of the mixed-correlation metric *)

Section MixedCorrelationMethods.

Import MixedCorrelation.

Variable plot_matrix_heatmap : matrix → string → string → option unit.
Variable format_4f : float → string.



Lemma norm_fro_swap (a b : matrix) :
  norm_fro (mat_sub a b) = norm_fro (mat_sub b a).
Proof.
  unfold norm_fro. do 2 f_equal. unfold mat_sub.
  revert b. induction a as [|ra a IH]; intros [|rb b]; try done.
  simpl. rewrite !fmap_app, IH. f_equal.
  clear. revert rb. induction ra as [|x ra IH]; intros [|y rb]; try done.
  simpl. rewrite IH. f_equal.
  destruct x, y; simpl; try done. f_equal. lra.
Qed.

(** What a returning [evaluate] has computed and stored. *)
Lemma mixed_evaluate_stored self mixed return_mats h l self' h' :
  evaluate plot_matrix_heatmap self mixed return_mats h = Some (l, self', h') →
  ∃ r f,
    correlation_of mixed (real_data self) (num_cols self) (cat_cols self)
    = Some r ∧
    correlation_of mixed (synt_data self) (num_cols self) (cat_cols self)
    = Some f ∧
    l = fresh (dom h) ∧
    self' = set_results (set_mixed_corr self mixed) l ∧
    h' = <[l :=
           let d : dict :=
             {[ "corr_mat_diff" := PyFloat (norm_fro (mat_sub r f)) ]} in
           if return_mats
           then <["diff_cor_mat" := PyMatrix (mat_sub r f)]>
                  (<["synt_cor_mat" := PyMatrix f]>
                     (<["real_cor_mat" := PyMatrix r]> d))
           else d]> h.
Proof.
  unfold evaluate, correlation_of. intros H.
  destruct mixed; simpl in H.
  - destruct (mixed_correlation (real_data self) _ _) as [r|]; [|done].
    destruct (mixed_correlation (synt_data self) _ _) as [f|]; [|done].
    simpl in H.
    destruct (if verbose self then _ else _); [|done]. simpl in H.
    injection H as <- <- <-. exists r, f. by destruct return_mats.
  - destruct (df_select (real_data self) _) as [r|]; [|done].
    destruct (df_select (synt_data self) _) as [f|]; [|done].
    simpl in H.
    destruct (if verbose self then _ else _); [|done]. simpl in H.
    injection H as <- <- <-. eexists _, _. by destruct return_mats.
Qed.

Lemma stored_corr_mat_diff (return_mats : bool) (x : float) (r f c : matrix) :
  (let d : dict := {[ "corr_mat_diff" := PyFloat x ]} in
   if return_mats
   then <["diff_cor_mat" := PyMatrix c]>
          (<["synt_cor_mat" := PyMatrix f]>
             (<["real_cor_mat" := PyMatrix r]> d))
   else d) !! "corr_mat_diff" = Some (PyFloat x).
Proof.
  cbv zeta. destruct return_mats.
  - rewrite !lookup_insert_ne by done. by rewrite lookup_singleton_eq.
  - by rewrite lookup_singleton_eq.
Qed.


(** X18: what [evaluate] leaves behind.  The instance records the mode
    in [mixed_corr] and its [results] name a mapping that holds the
    Frobenius norm of the difference of the real and the synthetic
    correlation matrix under ['corr_mat_diff']; with [return_mats] it
    holds in addition the two matrices and their difference and has
    these four keys, without it ['corr_mat_diff'] is its only key. *)
Theorem mixed_evaluate_stored_entries self mixed return_mats h l self' h' :
  evaluate plot_matrix_heatmap self mixed return_mats h = Some (l, self', h') →
  ∃ r f d,
    correlation_of mixed (real_data self) (num_cols self) (cat_cols self)
    = Some r ∧
    correlation_of mixed (synt_data self) (num_cols self) (cat_cols self)
    = Some f ∧
    mixed_corr self' = Some mixed ∧
    results self' = l ∧ h' !! l = Some d ∧
    d !! "corr_mat_diff" = Some (PyFloat (norm_fro (mat_sub r f))) ∧
    if return_mats then
      d !! "real_cor_mat" = Some (PyMatrix r) ∧
      d !! "synt_cor_mat" = Some (PyMatrix f) ∧
      d !! "diff_cor_mat" = Some (PyMatrix (mat_sub r f)) ∧
      dom d = list_to_set stored_keys
    else dom d = {[ "corr_mat_diff"%string ]}.
Proof.
  intros H.
  apply mixed_evaluate_stored in H as (r & f & Hr & Hf & -> & -> & ->).
  exists r, f. eexists. split; [done|]. split; [done|].
  split; [done|]. split; [done|].
  split; [apply lookup_insert_eq|].
  split; [apply stored_corr_mat_diff|].
  cbv zeta. destruct return_mats.
  - split; [by rewrite !lookup_insert_ne by done; rewrite lookup_insert_eq|].
    split; [by rewrite !lookup_insert_ne by done; rewrite lookup_insert_eq|].
    split; [by rewrite lookup_insert_eq|].
    rewrite !dom_insert_L, dom_singleton_L. unfold stored_keys. simpl.
    set_solver.
  - by rewrite dom_singleton_L.
Qed.

(** X19: the score does not depend on which of the two data sets is
    called real: with [verbose] off, [evaluate] on the instance with
    [real_data] and [synt_data] exchanged raises exactly when
    [evaluate] on the instance raises, and stores the same
    ['corr_mat_diff'] otherwise. *)
Theorem mixed_evaluate_swap self mixed return_mats h :
  verbose self = false →
  match evaluate plot_matrix_heatmap self mixed return_mats h,
        evaluate plot_matrix_heatmap
          (set_data self (synt_data self) (real_data self))
          mixed return_mats h with
  | Some (l1, _, h1), Some (l2, _, h2) =>
      (h1 !! l1) ≫= (.!! "corr_mat_diff") = (h2 !! l2) ≫= (.!! "corr_mat_diff")
  | None, None => True
  | _, _ => False
  end.
Proof.
  intros Hv. unfold evaluate. simpl. rewrite Hv.
  destruct mixed.
  - destruct (mixed_correlation (real_data self) _ _) as [r|],
             (mixed_correlation (synt_data self) _ _) as [f|]; simpl;
      try done.
    rewrite !lookup_insert_eq. simpl.
    rewrite (norm_fro_swap f r).
    destruct return_mats;
      rewrite ?lookup_insert_ne by done; by rewrite !lookup_singleton_eq.
  - destruct (df_select (real_data self) _) as [r|],
             (df_select (synt_data self) _) as [f|]; simpl; try done.
    rewrite !lookup_insert_eq. simpl.
    rewrite (norm_fro_swap (df_corr f) (df_corr r)).
    destruct return_mats;
      rewrite ?lookup_insert_ne by done; by rewrite !lookup_singleton_eq.
Qed.

(** X20: [format_output] raises ([AttributeError]) while [mixed_corr]
    is unset; after [evaluate] it returns the report line that carries
    the stored score rendered with ['%.4f'], worded for the mixed matrix
    or for the numeric columns only according to the mode [evaluate]
    was called with. *)
Theorem mixed_format_output_after_evaluate
    self mixed return_mats h l self' h' :
  evaluate plot_matrix_heatmap self mixed return_mats h = Some (l, self', h') →
  (mixed_corr self = None → format_output format_4f self h = None) ∧
  ∃ x, (h' !! l) ≫= (.!! "corr_mat_diff") = Some (PyFloat x) ∧
       format_output format_4f self' h'
       = Some ((if mixed
                then "| Mixed correlation matrix difference      :   "
                else "| Correlation difference (nums only)       :   ")
               +:+ format_4f x +:+ "           |").
Proof.
  intros H. split.
  { intros Hm. unfold format_output. by rewrite Hm. }
  apply mixed_evaluate_stored in H as (r & f & _ & _ & -> & -> & ->).
  unfold format_output. simpl.
  rewrite lookup_insert_eq. simpl.
  rewrite stored_corr_mat_diff. simpl.
  eexists. split; [done|]. by destruct mixed.
Qed.


End MixedCorrelationMethods.

(** * The further properties at the sample inputs *)

Section MoreSamples.

Lemma entropy_weights_of_one_row :
  length (EpsilonIdentifiability.entropy_weights one_row_frame) = 2%nat ∧
  EpsilonIdentifiability.entropy_weights one_row_frame !! 0%nat
  = Some (Fin (10 ^ 16)).
Proof.
  destruct (entropy_weights_positive one_row_frame) as (Hlen & _ & Hconst).
  - by repeat constructor.
  - split; [exact Hlen|].
    apply (Hconst 0%nat ("x"%string, [5])); [reflexivity|].
    intros x y Hx%list_elem_of_singleton Hy%list_elem_of_singleton.
    by subst.
Defined.


Lemma eps_normalized_score_of_one_row :
  ∃ l self' h' x,
    EpsilonIdentifiability.evaluate (knn_const [1]) (one_row_metric "euclid")
      one_entry_heap = Some (l, self', h') ∧
    EpsilonIdentifiability.normalize_output self' h'
    = Some (mkNormalized [Fin x] [0%Z]) ∧ 0 < x <= 1.
Proof.
  destruct (eps_normalize_output_after_evaluate (knn_const [1]) _ _ _ _ _
              one_row_euclid_evaluate) as (w & Hw & Hr).
  simpl in Hr. destruct Hr as (x & -> & Hx).
  eexists _, _, _, x. split; [exact one_row_euclid_evaluate|].
  split; [exact Hw|exact Hx].
Defined.

Lemma eps_evaluate_twice_on_one_row :
  ∃ l self' h',
    EpsilonIdentifiability.evaluate (knn_const [1]) (one_row_metric "euclid")
      one_entry_heap = Some (l, self', h') ∧
    EpsilonIdentifiability.evaluate (knn_const [1]) self' h'
    = Some (l, self', h').
Proof.
  eexists _, _, _. split; [exact one_row_euclid_evaluate|].
  exact (eps_evaluate_idempotent (knn_const [1]) _ _ _ _ _
           one_row_euclid_evaluate).
Defined.

Lemma eps_evaluate_without_column_z :
  EpsilonIdentifiability.evaluate (knn_const [1]) missing_column_metric
    one_entry_heap = None.
Proof.
  apply (eps_evaluate_missing_numeric_column (knn_const [1])
           missing_column_metric one_entry_heap); [reflexivity|].
  intros [H _]. inversion H as [|? ? Hz _]. by destruct Hz.
Defined.

Lemma eps_report_line_of_one_row :
  EpsilonIdentifiability.format_output format_fixed (one_row_metric "euclid")
    one_entry_heap = None ∧
  ∃ l self' h',
    EpsilonIdentifiability.evaluate (knn_const [1]) (one_row_metric "euclid")
      one_entry_heap = Some (l, self', h') ∧
    EpsilonIdentifiability.format_output format_fixed self' h'
    = Some "| Epsilon identifiability risk             :   0.0000           |"%string.
Proof.
  destruct (eps_format_output_after_evaluate (knn_const [1]) format_fixed
              (one_row_metric "euclid") one_entry_heap one_entry_results
              _ _ _ eq_refl eq_refl one_row_euclid_evaluate)
    as (Hnone & _ & risk & _ & Hline).
  split; [exact Hnone|].
  eexists _, _, _. split; [exact one_row_euclid_evaluate|exact Hline].
Defined.

Lemma cramers_V_of_a_constant_sample :
  _cramers_V [1; 1] [0; 1] = Some (Fin 0).
Proof.
  apply (cramers_V_constant_column [1; 1] [0; 1]);
    [discriminate|reflexivity|].
  left. intros x y Hx Hy.
  apply elem_of_cons in Hx as [->|Hx%list_elem_of_singleton];
    apply elem_of_cons in Hy as [->|Hy%list_elem_of_singleton]; by subst.
Defined.

Lemma cramers_V_nonneg_of_sample :
  ∃ v, _cramers_V [0; 1; 1] [2; 2; 3] = Some (Fin v) ∧ 0 <= v.
Proof.
  apply (cramers_V_nonneg [0; 1; 1] [2; 2; 3]); [discriminate|reflexivity].
Defined.

Lemma correlation_ratio_of_one_category_sample :
  _correlation_ratio [3; 3] [1; 2] = Some (Fin 0).
Proof.
  apply (correlation_ratio_one_category [3; 3] [1; 2]);
    [discriminate|reflexivity|].
  intros x y Hx Hy.
  apply elem_of_cons in Hx as [->|Hx%list_elem_of_singleton];
    apply elem_of_cons in Hy as [->|Hy%list_elem_of_singleton]; by subst.
Defined.


Lemma apply_mat_on_one_row :
  ∃ M, _apply_mat one_row_frame (λ _ _, Some (Fin 0)) ["x"; "c"]%string
         ["c"%string] = Some M ∧
       length M = 2%nat ∧ Forall (λ row, length row = 1%nat) M.
Proof.
  eexists. split; [reflexivity|].
  destruct (apply_mat_entries one_row_frame (λ _ _, Some (Fin 0))
              ["x"; "c"]%string ["c"%string] _ eq_refl) as (H1 & H2 & _).
  split; [exact H1|exact H2].
Defined.

Lemma apply_mat_without_column_z :
  _apply_mat one_row_frame _cramers_V ["c"; "z"]%string ["c"%string] = None.
Proof.
  apply (apply_mat_missing_label one_row_frame _cramers_V
           ["c"; "z"]%string ["c"%string] "z"%string);
    [discriminate|discriminate| |reflexivity].
  apply elem_of_app. left. right. by left.
Defined.


Lemma one_row_matrix_returns :
  is_Some (mixed_correlation one_row_frame ["x"%string] ["c"%string]) ∧
  ¬ is_Some (mixed_correlation one_row_frame ["z"%string] ["c"%string]).
Proof.
  split.
  - apply (mixed_correlation_returns_iff one_row_frame ["x"%string]
             ["c"%string] one_row_frame_well_formed).
    split; [exact one_row_frame_has_x|exact one_row_frame_has_c].
  - intros H.
    apply (mixed_correlation_returns_iff one_row_frame ["z"%string]
             ["c"%string] one_row_frame_well_formed) in H as [H _].
    inversion H as [|? ? Hz _]. by destruct Hz.
Defined.

Lemma empty_frame_raises :
  mixed_correlation empty_frame ["x"%string] ["c"%string] = None.
Proof.
  apply (mixed_correlation_no_rows empty_frame ["x"%string] ["c"%string]);
    [reflexivity|by repeat constructor|discriminate].
Defined.



Lemma mixed_results_of_one_row :
  ∃ l self' h' d,
    MixedCorrelation.evaluate plot_silent (one_row_metric "gower") true
      false one_entry_heap = Some (l, self', h') ∧
    mixed_corr self' = Some true ∧ h' !! l = Some d ∧
    dom d = {[ "corr_mat_diff"%string ]}.
Proof.
  destruct one_row_mixed_evaluate as (l & self' & h' & Hev).
  destruct (mixed_evaluate_stored_entries plot_silent _ _ _ _ _ _ _ Hev)
    as (r & f & d & _ & _ & Hm & _ & Hd & _ & Hdom).
  exists l, self', h', d. split; [exact Hev|].
  split; [exact Hm|]. split; [exact Hd|exact Hdom].
Defined.

Lemma mixed_swap_on_one_row :
  match MixedCorrelation.evaluate plot_silent (one_row_metric "gower") true
          false one_entry_heap,
        MixedCorrelation.evaluate plot_silent
          (set_data (one_row_metric "gower") one_row_frame one_row_frame)
          true false one_entry_heap with
  | Some (l1, _, h1), Some (l2, _, h2) =>
      (h1 !! l1) ≫= (.!! "corr_mat_diff") = (h2 !! l2) ≫= (.!! "corr_mat_diff")
  | None, None => True
  | _, _ => False
  end.
Proof.
  apply (mixed_evaluate_swap plot_silent (one_row_metric "gower") true false
           one_entry_heap). reflexivity.
Defined.

Lemma mixed_report_line_of_one_row :
  ∃ l self' h',
    MixedCorrelation.evaluate plot_silent (one_row_metric "gower") true
      false one_entry_heap = Some (l, self', h') ∧
    MixedCorrelation.format_output format_fixed (one_row_metric "gower")
      one_entry_heap = None ∧
    MixedCorrelation.format_output format_fixed self' h'
    = Some "| Mixed correlation matrix difference      :   0.0000           |"%string.
Proof.
  destruct one_row_mixed_evaluate as (l & self' & h' & Hev).
  destruct (mixed_format_output_after_evaluate plot_silent format_fixed
              _ _ _ _ _ _ _ Hev) as (Hnone & x & _ & Hline).
  exists l, self', h'. split; [exact Hev|].
  split; [by apply Hnone|exact Hline].
Defined.


End MoreSamples.
